(** * TChannelConnectionBase: operation tables, timeout sweeper and teardown

    A shallow embedding of [connection_base.js].  A connection is a record
    of its fields; every method is a function of the connection state in a
    small state-and-exception monad, because a JavaScript method keeps the
    mutations it made before it threw.  Calls into collaborators (the event
    emitter, the logger, the timer source, [process.nextTick]) are recorded
    in an effect log, in program order.

    Conventions of the embedding.
    - Time stamps and time budgets are integers (milliseconds), as [Z].
      The sweep delay is computed over exact rationals [Q]: it involves
      [fuzz / 2], [Math.floor] and [Math.round], and the random draw is a
      fraction in [0,1).  Rounding error of binary floating point is not
      modelled.
    - [self.timers.now()] and [self.random()] are inputs of the method that
      calls them; one synchronous method call sees one clock reading.
    - An operation table is a JavaScript object used as a map.  Operation
      IDs are frame numbers, hence integer-like property names, which
      [Object.keys] enumerates in ascending order: a table is an association
      list kept in ascending key order.  A slot may hold [undefined].
    - Listeners run by [emit] are the owner's code; [emit] is recorded as an
      effect, and a listener is taken to be subscribed, to return normally
      and not to call back into the connection during the call.
    - [onReqError] builds a response when the operation has none (a call
      of [buildResponse]) and hands the error to the response's
      [sendError]; [runHandler] and [handleSpanFromRes] only talk to the
      handler and the tracer.  They are not embedded: what they can do to
      the connection is a call of [buildResponse], a response moving
      through its lifecycle, or [opDone], which are calls of the model.
      Tracing ([options.tracer], [req.span]) is left out. *)

From Stdlib Require Import String ZArith QArith Qround List Sorted Bool Lia Lqa.
Import ListNotations.
Local Open Scope Z_scope.

(** ** JavaScript values and object tables *)

Inductive jsval (A : Type) : Type :=
| undefined
| obj (a : A).
Arguments undefined {A}.
Arguments obj {A} a.

Definition Id := N.

Definition table (A : Type) := list (Id * jsval A).

Module Table.
Section Ops.
Context {A : Type}.

(** [Object.keys(t)] *)
Definition keys (t : table A) : list Id := map fst t.

(** [t[k]]: a missing property reads as [undefined]. *)
Fixpoint get (t : table A) (k : Id) : jsval A :=
  match t with
  | [] => undefined
  | (k', v) :: t' => if N.eqb k k' then v else get t' k
  end.

(** [t[k] = v]: overwrite in place, or create the property. *)
Fixpoint set (k : Id) (v : jsval A) (t : table A) : table A :=
  match t with
  | [] => [(k, v)]
  | (k', v') :: t' =>
      if N.eqb k k' then (k, v) :: t'
      else if N.ltb k k' then (k, v) :: t
      else (k', v') :: set k v t'
  end.

(** [delete t[k]] *)
Fixpoint delete (k : Id) (t : table A) : table A :=
  match t with
  | [] => []
  | (k', v') :: t' => if N.eqb k k' then t' else (k', v') :: delete k t'
  end.

Definition size (t : table A) : Z := Z.of_nat (length t).
End Ops.
End Table.

(** ** Errors *)

(** Modelled from the spec: the response object's lifecycle state, "at
    least Initial and later states" ([OutgoingResponse.States] lives in
    [outgoing_response.js]). *)
Inductive ResState : Type :=
| Initial
| Later (n : nat).

Definition ResState_eqb (a b : ResState) : bool :=
  match a, b with
  | Initial, Initial => true
  | Later n, Later m => Nat.eqb n m
  | _, _ => false
  end.

(** Modelled from the spec: the error kinds of section 7 (the constructors
    live in [errors.js]).  [NativeError] is [new Error(message)], which
    has no [type] property; [NativeTypeError] is the TypeError the runtime
    throws when a property of [undefined] is read; [TypedError] stands for
    any other typed error a caller may pass in. *)
Inductive JsError : Type :=
| TimeoutError (id : Id) (start elapsed timeout : Z)
| SocketClosedError (reason : string)
| ResponseAlreadyStarted (state : ResState)
| NativeError (message : string)
| NativeTypeError (message : string)
| TypedError (type : string) (message : string).

(** [err.type] *)
Definition err_type (e : JsError) : option string :=
  match e with
  | TimeoutError _ _ _ _ => Some "tchannel.timeout-error"%string
  | SocketClosedError _ => Some "tchannel.socket-closed"%string
  | ResponseAlreadyStarted _ => Some "tchannel.response-already-started"%string
  | NativeError _ => None
  | NativeTypeError _ => None
  | TypedError t _ => Some t
  end.

(** ** Requests, operations, responses *)

(** The [options] argument of [request]: the two properties it reads. *)
Record AdmOptions : Type := mkAdmOptions {
  opt_timeout : option Z;
  opt_checksum : option N
}.

(** Modelled from the spec: the outgoing request object, "an identifier, a
    time-to-live" and the checksum kind handed to the request builder. *)
Record OutReq : Type := mkOutReq {
  oreq_id : Id;
  oreq_ttl : Z;
  oreq_checksumType : option N
}.

(** Modelled from the spec: [TChannelClientOp(req, start)], with its
    [timedOut] flag, false at construction. *)
Record ClientOp : Type := mkClientOp {
  cop_req : OutReq;
  cop_start : Z;
  cop_timedOut : bool
}.

(** The decoded incoming request. *)
Record InReq : Type := mkInReq {
  ireq_id : Id;
  ireq_ttl : Z;
  ireq_remoteAddr : option string
}.

(** Modelled from the spec: [TChannelServerOp(connection, start, req)];
    [res] is a reference into the store of response objects. *)
Record ServerOp : Type := mkServerOp {
  sop_start : Z;
  sop_req : InReq;
  sop_res : option nat
}.

(** One activation of [handleCallRequest]: the variables [id], [op] and
    [done] its inner functions close over.  The activation's position in
    [srvCalls] is the identity of its [op] object. *)
Record ServerCall : Type := mkServerCall {
  sc_id : Id;
  sc_op : ServerOp;
  sc_done : bool
}.

(** A response object: its state, and the activation whose [opDone] is
    subscribed to its [finish] and [errored] notifications. *)
Record Response : Type := mkResponse {
  res_state : ResState;
  res_call : nat
}.

(** ** Effects on collaborators *)

Inductive Level : Type := Warn | Info.

Inductive LogMeta : Type :=
| MetaNone
| MetaReset (error : JsError) (remoteName : option string)
            (numInOps numOutOps : nat) (inPending outPending : Z)
| MetaUndefinedOp (id : Id)
| MetaMismatch (opId : Id).

Inductive ConnEvent : Type :=
| EvError (err : JsError)
| EvTimedOut.

Inductive Effect : Type :=
| ConnEmit (ev : ConnEvent)                     (* self.emit(...) *)
| ReqEmitError (req : OutReq) (err : JsError)   (* op.req.emit('error', err) *)
| Log (lvl : Level) (msg : string) (meta : LogMeta)
| SetTimeout (delay : Q)                        (* self.timers.setTimeout *)
| ClearTimeout (delay : Q)                      (* self.timers.clearTimeout *)
| ReqOnError (call : nat)                       (* req.on('error', onReqError) *)
| NextTick (call : nat).                        (* process.nextTick(runHandler) *)

(** ** The connection *)

Record ChannelOptions : Type := mkChannelOptions {
  timeoutCheckInterval : Q;
  timeoutFuzz : Q
}.

Record Pending : Type := mkPending {
  p_in : Z;
  p_out : Z
}.

Record Conn : Type := mkConn {
  options : ChannelOptions;
  remoteName : option string;
  timer : option Q;                 (* the armed handle, by its delay *)
  inOps : table nat;                (* id -> reference to an activation's op *)
  outOps : table ClientOp;
  pending : Pending;
  lastTimeoutTime : Z;
  closing : bool;
  srvCalls : list ServerCall;       (* store of handleCallRequest activations *)
  responses : list Response;        (* store of response objects *)
  effects : list Effect             (* oldest first *)
}.

Definition with_timer (x : option Q) (s : Conn) : Conn :=
  mkConn (options s) (remoteName s) x (inOps s) (outOps s) (pending s)
         (lastTimeoutTime s) (closing s) (srvCalls s) (responses s) (effects s).
Definition with_inOps (x : table nat) (s : Conn) : Conn :=
  mkConn (options s) (remoteName s) (timer s) x (outOps s) (pending s)
         (lastTimeoutTime s) (closing s) (srvCalls s) (responses s) (effects s).
Definition with_outOps (x : table ClientOp) (s : Conn) : Conn :=
  mkConn (options s) (remoteName s) (timer s) (inOps s) x (pending s)
         (lastTimeoutTime s) (closing s) (srvCalls s) (responses s) (effects s).
Definition with_pending (x : Pending) (s : Conn) : Conn :=
  mkConn (options s) (remoteName s) (timer s) (inOps s) (outOps s) x
         (lastTimeoutTime s) (closing s) (srvCalls s) (responses s) (effects s).
Definition with_lastTimeoutTime (x : Z) (s : Conn) : Conn :=
  mkConn (options s) (remoteName s) (timer s) (inOps s) (outOps s) (pending s)
         x (closing s) (srvCalls s) (responses s) (effects s).
Definition with_closing (x : bool) (s : Conn) : Conn :=
  mkConn (options s) (remoteName s) (timer s) (inOps s) (outOps s) (pending s)
         (lastTimeoutTime s) x (srvCalls s) (responses s) (effects s).
Definition with_srvCalls (x : list ServerCall) (s : Conn) : Conn :=
  mkConn (options s) (remoteName s) (timer s) (inOps s) (outOps s) (pending s)
         (lastTimeoutTime s) (closing s) x (responses s) (effects s).
Definition with_responses (x : list Response) (s : Conn) : Conn :=
  mkConn (options s) (remoteName s) (timer s) (inOps s) (outOps s) (pending s)
         (lastTimeoutTime s) (closing s) (srvCalls s) x (effects s).
Definition with_effects (x : list Effect) (s : Conn) : Conn :=
  mkConn (options s) (remoteName s) (timer s) (inOps s) (outOps s) (pending s)
         (lastTimeoutTime s) (closing s) (srvCalls s) (responses s) x.

(** ** Methods run in a state-and-exception monad *)

Inductive outcome (A : Type) : Type :=
| Ret (a : A)
| Throw (e : JsError).
Arguments Ret {A} a.
Arguments Throw {A} e.

Definition M (A : Type) : Type := Conn -> outcome A * Conn.

Definition ret {A} (a : A) : M A := fun s => (Ret a, s).
Definition throw {A} (e : JsError) : M A := fun s => (Throw e, s).
Definition bind {A B} (m : M A) (f : A -> M B) : M B :=
  fun s => match m s with
           | (Ret a, s') => f a s'
           | (Throw e, s') => (Throw e, s')
           end.
Definition gets {A} (f : Conn -> A) : M A := fun s => (Ret (f s), s).
Definition modify (f : Conn -> Conn) : M unit := fun s => (Ret tt, f s).

Notation "x <- m ;; k" := (bind m (fun x => k))
  (at level 61, m at next level, right associativity).
Notation "m ;; k" := (bind m (fun _ => k))
  (at level 61, right associativity).

(** A [for] loop over an array, or [Array.prototype.forEach]: an exception
    in the body ends the loop. *)
Fixpoint forEach {K} (body : K -> M unit) (ks : list K) : M unit :=
  match ks with
  | [] => ret tt
  | k :: ks' => body k ;; forEach body ks'
  end.

Definition effect (e : Effect) : M unit :=
  modify (fun s => with_effects (effects s ++ [e]) s).

Definition final {A} (r : outcome A * Conn) : Conn := snd r.

(** ** The timeout timer *)

Definition js_floor (x : Q) : Q := inject_Z (Qfloor x).

(** [Math.round]: the nearest integer, a half rounding up. *)
Definition js_round (x : Q) : Q := inject_Z (Qfloor (x + (1 # 2))).

(** [getTimeoutDelay], [r] being the value of [self.random()]. *)
Definition getTimeoutDelay (r : Q) (s : Conn) : Q :=
  let base := timeoutCheckInterval (options s) in
  let fuzz := timeoutFuzz (options s) in
  (base + js_round (js_floor (r * fuzz) - (fuzz / 2)))%Q.

Definition startTimeoutTimer (r : Q) : M unit :=
  d <- gets (getTimeoutDelay r) ;;
  effect (SetTimeout d) ;;
  modify (with_timer (Some d)).

Definition clearTimeoutTimer : M unit :=
  t <- gets timer ;;
  match t with
  | Some d => effect (ClearTimeout d) ;; modify (with_timer None)
  | None => ret tt
  end.

(** ** The constructor *)

Definition TChannelConnectionBase (o : ChannelOptions) (r : Q) : Conn :=
  final (startTimeoutTimer r
           (mkConn o None None [] [] (mkPending 0 0) 0 false [] [] [])).

(** ** The timeout sweep *)

Definition dec_pending_in : M unit :=
  modify (fun s => with_pending
                     (mkPending (p_in (pending s) - 1) (p_out (pending s))) s).
Definition dec_pending_out : M unit :=
  modify (fun s => with_pending
                     (mkPending (p_in (pending s)) (p_out (pending s) - 1)) s).
Definition inc_pending_in : M unit :=
  modify (fun s => with_pending
                     (mkPending (p_in (pending s) + 1) (p_out (pending s))) s).
Definition inc_pending_out : M unit :=
  modify (fun s => with_pending
                     (mkPending (p_in (pending s)) (p_out (pending s) + 1)) s).

Definition delete_inOp (id : Id) : M unit :=
  modify (fun s => with_inOps (Table.delete id (inOps s)) s).
Definition delete_outOp (id : Id) : M unit :=
  modify (fun s => with_outOps (Table.delete id (outOps s)) s).

(** [onReqTimeout].  The operation has left the table when it is flagged:
    the flagged record is what a holder of the operation sees from then on,
    and it is returned here. *)
Definition onReqTimeout (now : Z) (op : ClientOp) : M ClientOp :=
  let op := mkClientOp (cop_req op) (cop_start op) true in
  effect (ReqEmitError (cop_req op)
            (TimeoutError (oreq_id (cop_req op)) (cop_start op)
                          (now - cop_start op) (oreq_ttl (cop_req op)))) ;;
  modify (with_lastTimeoutTime now) ;;
  ret op.

(** Reading [op.timedOut]: a TypeError when [op] is [undefined]. *)
Definition read_timedOut (op : jsval ClientOp) : M bool :=
  match op with
  | undefined =>
      throw (NativeTypeError "Cannot read property 'timedOut' of undefined")
  | obj o => ret (cop_timedOut o)
  end.

(** The body of the loop of [checkOutOpsForTimeout], in source order. *)
Definition checkOutOp (now : Z) (id : Id) : M unit :=
  ops <- gets outOps ;;
  let op := Table.get ops id in
  timedOut <- read_timedOut op ;;
  if (timedOut : bool) then
    delete_outOp id ;;
    dec_pending_out ;;
    effect (Log Warn "lingering timed-out outgoing operation" MetaNone)
  else
    match op with
    | undefined =>
        effect (Log Warn "unexpected undefined operation" (MetaUndefinedOp id))
    | obj o =>
        let duration := now - cop_start o in
        if oreq_ttl (cop_req o) <? duration then
          delete_outOp id ;;
          dec_pending_out ;;
          onReqTimeout now o ;;
          ret tt
        else ret tt
    end.

Definition checkOutOpsForTimeout (now : Z) : M unit :=
  opKeys <- gets (fun s => Table.keys (outOps s)) ;;
  forEach (checkOutOp now) opKeys.

(** The body of the loop of [checkInOpsForTimeout].  A slot holds a
    reference to a live activation; a reference outside the store does not
    arise in JavaScript and is left alone here. *)
Definition checkInOp (now : Z) (id : Id) : M unit :=
  ops <- gets inOps ;;
  calls <- gets srvCalls ;;
  match Table.get ops id with
  | undefined => ret tt
  | obj h =>
      match nth_error calls h with
      | None => ret tt
      | Some c =>
          let duration := now - sop_start (sc_op c) in
          if ireq_ttl (sop_req (sc_op c)) <? duration then
            delete_inOp id ;;
            dec_pending_in
          else ret tt
      end
  end.

Definition checkInOpsForTimeout (now : Z) : M unit :=
  opKeys <- gets (fun s => Table.keys (inOps s)) ;;
  forEach (checkInOp now) opKeys.

(** [onTimeoutCheck], run when the timer fires. *)
Definition onTimeoutCheck (now : Z) (r : Q) : M unit :=
  cl <- gets closing ;;
  if (cl : bool) then ret tt
  else
    last <- gets lastTimeoutTime ;;
    if negb (last =? 0) then effect (ConnEmit EvTimedOut)
    else
      checkOutOpsForTimeout now ;;
      checkInOpsForTimeout now ;;
      startTimeoutTimer r.

(** ** Teardown *)

Definition unknown_reset : JsError := NativeError "unknown connection reset".

(** [if (!err) err = new Error(...)]: [None] is an absent (falsy) [err]. *)
Definition reset_error (err : option JsError) : JsError :=
  match err with
  | Some e => e
  | None => unknown_reset
  end.

Definition opt_string_eqb (a b : option string) : bool :=
  match a, b with
  | Some x, Some y => String.eqb x y
  | None, None => true
  | _, _ => false
  end.

(** [err.type !== 'tchannel.socket-closed'] *)
Definition isError (e : JsError) : bool :=
  negb (opt_string_eqb (err_type e) (Some "tchannel.socket-closed"%string)).

(** Reading [op.req] for [op.req.emit]: a TypeError when [op] is [undefined]. *)
Definition read_req (op : jsval ClientOp) : M OutReq :=
  match op with
  | undefined => throw (NativeTypeError "Cannot read property 'req' of undefined")
  | obj o => ret (cop_req o)
  end.

Definition eachInOp (id : Id) : M unit := delete_inOp id.

Definition eachOutOp (err : JsError) (id : Id) : M unit :=
  ops <- gets outOps ;;
  let op := Table.get ops id in
  delete_outOp id ;;
  req <- read_req op ;;
  effect (ReqEmitError req err).

Definition resetAll (err0 : option JsError) : M unit :=
  clearTimeoutTimer ;;
  cl <- gets closing ;;
  if (cl : bool) then ret tt
  else
    modify (with_closing true) ;;
    inOpKeys <- gets (fun s => Table.keys (inOps s)) ;;
    outOpKeys <- gets (fun s => Table.keys (outOps s)) ;;
    let err := reset_error err0 in
    pend <- gets pending ;;
    rn <- gets remoteName ;;
    effect (Log (if isError err then Warn else Info) "resetting connection"
              (MetaReset err rn (length inOpKeys) (length outOpKeys)
                         (p_in pend) (p_out pend))) ;;
    (if isError err then effect (ConnEmit (EvError err)) else ret tt) ;;
    forEach eachInOp inOpKeys ;;
    forEach (eachOutOp err) outOpKeys ;;
    modify (with_pending (mkPending 0 0)).

(** [close(callback)]: the callback is the caller's. *)
Definition close : M unit :=
  resetAll (Some (SocketClosedError "local close")).

(** ** Outgoing requests *)

Definition popOutOp (id : Id) : M (jsval ClientOp) :=
  ops <- gets outOps ;;
  match Table.get ops id with
  | undefined => ret undefined
  | obj o =>
      delete_outOp id ;;
      dec_pending_out ;;
      ret (obj o)
  end.

Definition DEFAULT_OUTGOING_REQ_TIMEOUT : Z := 2000.

(** [options.timeout || DEFAULT_OUTGOING_REQ_TIMEOUT]: an absent timeout
    and the number 0 are falsy. *)
Definition timeout_or_default (t : option Z) : Z :=
  match t with
  | Some z => if z =? 0 then DEFAULT_OUTGOING_REQ_TIMEOUT else z
  | None => DEFAULT_OUTGOING_REQ_TIMEOUT
  end.

(** Modelled from the spec: the request builder, which "given admission
    options (checksum kind, TTL, tracing context), returns a request object
    carrying a unique ID" ([buildOutgoingRequest] belongs to a subclass).
    [id] is the ID the builder assigns; [ttl] and [checksumType] are the
    properties [request] has just stored in [options]. *)
Definition buildOutgoingRequest (id : Id) (ttl : Z) (checksumType : option N)
  : OutReq :=
  mkOutReq id ttl checksumType.

(** [request(options)]; [None] is a call without options. *)
Definition request (now : Z) (id : Id) (options0 : option AdmOptions)
  : M OutReq :=
  let options := match options0 with
                 | Some o => o
                 | None => mkAdmOptions None None
                 end in
  let checksumType := opt_checksum options in
  let ttl := timeout_or_default (opt_timeout options) in
  let req := buildOutgoingRequest id ttl checksumType in
  let id := oreq_id req in
  modify (fun s => with_outOps
                     (Table.set id (obj (mkClientOp req now false)) (outOps s)) s) ;;
  inc_pending_out ;;
  ret req.

(** ** Incoming requests *)

(** [handleCallRequest(req)]: returns the reference of the new activation. *)
Definition handleCallRequest (now : Z) (req0 : InReq) : M nat :=
  rn <- gets remoteName ;;
  let req := mkInReq (ireq_id req0) (ireq_ttl req0) rn in
  let id := ireq_id req in
  inc_pending_in ;;
  h <- gets (fun s => length (srvCalls s)) ;;
  modify (fun s => with_srvCalls
                     (srvCalls s ++ [mkServerCall id (mkServerOp now req None) false])
                     s) ;;
  modify (fun s => with_inOps (Table.set id (obj h) (inOps s)) s) ;;
  effect (ReqOnError h) ;;
  effect (NextTick h) ;;
  ret h.

Fixpoint list_set {A} (n : nat) (x : A) (l : list A) : list A :=
  match l, n with
  | [], _ => []
  | _ :: l', O => x :: l'
  | y :: l', S n' => y :: list_set n' x l'
  end.

Definition set_call (h : nat) (c : ServerCall) : M unit :=
  modify (fun s => with_srvCalls (list_set h c (srvCalls s)) s).

(** [op.res && op.res.state !== OutgoingResponse.States.Initial] *)
Definition res_started (rs : list Response) (res : option nat) : option ResState :=
  match res with
  | None => None
  | Some r =>
      match nth_error rs r with
      | None => None
      | Some x => if ResState_eqb (res_state x) Initial then None
                  else Some (res_state x)
      end
  end.

(** [buildResponse] of activation [h]; returns the reference of the new
    response.  Modelled from the spec: the response builder
    ([buildOutgoingResponse] belongs to a subclass) returns a new response
    object, whose lifecycle starts in [Initial]. *)
Definition buildResponse (h : nat) : M (option nat) :=
  calls <- gets srvCalls ;;
  match nth_error calls h with
  | None => ret None
  | Some c =>
      rs <- gets responses ;;
      match res_started rs (sop_res (sc_op c)) with
      | Some st => throw (ResponseAlreadyStarted st)
      | None =>
          let r := length rs in
          modify (with_responses (rs ++ [mkResponse Initial h])) ;;
          set_call h (mkServerCall (sc_id c)
                        (mkServerOp (sop_start (sc_op c)) (sop_req (sc_op c)) (Some r))
                        (sc_done c)) ;;
          ret (Some r)
      end
  end.

Definition jsval_nat_eqb (v : jsval nat) (h : nat) : bool :=
  match v with
  | undefined => false
  | obj h' => Nat.eqb h' h
  end.

(** [opDone] of activation [h]. *)
Definition opDone (h : nat) : M unit :=
  calls <- gets srvCalls ;;
  match nth_error calls h with
  | None => ret tt
  | Some c =>
      if sc_done c then ret tt
      else
        set_call h (mkServerCall (sc_id c) (sc_op c) true) ;;
        ops <- gets inOps ;;
        if negb (jsval_nat_eqb (Table.get ops (sc_id c)) h) then
          effect (Log Warn "mismatched opDone callback" (MetaMismatch (sc_id c)))
        else
          delete_inOp (sc_id c) ;;
          dec_pending_in
  end.

(** A response object moving through its lifecycle, driven by its owner.
    Its [finish] and [errored] notifications run [opDone]. *)
Definition setResState (r : nat) (st : ResState) : M unit :=
  rs <- gets responses ;;
  match nth_error rs r with
  | None => ret tt
  | Some x => modify (with_responses (list_set r (mkResponse st (res_call x)) rs))
  end.

(** ** Calls on a connection and the states they reach *)

Inductive Call : Type :=
| CallRequest (now : Z) (id : Id) (options0 : option AdmOptions)
| CallHandleCallRequest (now : Z) (req : InReq)
| CallPopOutOp (id : Id)
| CallOnTimeoutCheck (now : Z) (r : Q)
| CallBuildResponse (h : nat)
| CallSetResState (r : nat) (st : ResState)
| CallOpDone (h : nat)
| CallResetAll (err : option JsError)
| CallClose.

(** The state a call leaves behind, whether it returned or threw. *)
Definition run (c : Call) (s : Conn) : Conn :=
  match c with
  | CallRequest now id o => final (request now id o s)
  | CallHandleCallRequest now req => final (handleCallRequest now req s)
  | CallPopOutOp id => final (popOutOp id s)
  | CallOnTimeoutCheck now r => final (onTimeoutCheck now r s)
  | CallBuildResponse h => final (buildResponse h s)
  | CallSetResState r st => final (setResState r st s)
  | CallOpDone h => final (opDone h s)
  | CallResetAll err => final (resetAll err s)
  | CallClose => final (close s)
  end.

Definition runs (cs : list Call) (s : Conn) : Conn :=
  fold_left (fun s c => run c s) cs s.

Definition has_key {A} (k : Id) (t : table A) : bool :=
  existsb (N.eqb k) (Table.keys t).

(** An operation is registered under an ID that is not in flight. *)
Definition fresh (c : Call) (s : Conn) : bool :=
  match c with
  | CallRequest _ id _ => negb (has_key id (outOps s))
  | CallHandleCallRequest _ req => negb (has_key (ireq_id req) (inOps s))
  | _ => true
  end.

Inductive reachable : Conn -> Prop :=
| reach_new (o : ChannelOptions) (r : Q) :
    reachable (TChannelConnectionBase o r)
| reach_call (s : Conn) (c : Call) :
    reachable s -> fresh c s = true -> reachable (run c s).

(** ** Well-formed connection states *)

Definition out_slot_ok (kv : Id * jsval ClientOp) : bool :=
  match snd kv with
  | obj o => negb (cop_timedOut o) && N.eqb (oreq_id (cop_req o)) (fst kv)
  | undefined => false
  end.

Definition in_slot_ok (n : nat) (kv : Id * jsval nat) : bool :=
  match snd kv with
  | obj h => Nat.ltb h n
  | undefined => false
  end.

Record wf (s : Conn) : Prop := mkWf {
  wf_in_keys : NoDup (Table.keys (inOps s));
  wf_out_keys : NoDup (Table.keys (outOps s));
  wf_out_slots : forallb out_slot_ok (outOps s) = true;
  wf_in_slots : forallb (in_slot_ok (length (srvCalls s))) (inOps s) = true;
  wf_pending_out : p_out (pending s) = Table.size (outOps s);
  wf_pending_in : p_in (pending s) = Table.size (inOps s)
}.

(** What one sweep finds in a table. *)
Definition expired_out (now : Z) (kv : Id * jsval ClientOp) : bool :=
  match snd kv with
  | obj o => oreq_ttl (cop_req o) <? now - cop_start o
  | undefined => false
  end.

Definition expired_in (now : Z) (calls : list ServerCall) (kv : Id * jsval nat)
  : bool :=
  match snd kv with
  | obj h =>
      match nth_error calls h with
      | Some c => ireq_ttl (sop_req (sc_op c)) <? now - sop_start (sc_op c)
      | None => false
      end
  | undefined => false
  end.

Definition timeout_error (now : Z) (o : ClientOp) : JsError :=
  TimeoutError (oreq_id (cop_req o)) (cop_start o)
               (now - cop_start o) (oreq_ttl (cop_req o)).

(** The Timeout deliveries of one sweep over the entries [t]. *)
Definition timeout_deliveries (now : Z) (t : table ClientOp) : list Effect :=
  flat_map (fun kv => match snd kv with
                      | obj o => if expired_out now kv
                                 then [ReqEmitError (cop_req o) (timeout_error now o)]
                                 else []
                      | undefined => []
                      end) t.

(** The deliveries of [err] by a teardown over the entries [t]. *)
Definition reset_deliveries (err : JsError) (t : table ClientOp) : list Effect :=
  flat_map (fun kv => match snd kv with
                      | obj o => [ReqEmitError (cop_req o) err]
                      | undefined => []
                      end) t.

(** The 'error' notifications and the log severities in an effect log. *)
Definition conn_errors (l : list Effect) : list JsError :=
  flat_map (fun e => match e with ConnEmit (EvError err) => [err] | _ => [] end) l.

Definition log_levels (l : list Effect) : list Level :=
  flat_map (fun e => match e with Log lvl _ _ => [lvl] | _ => [] end) l.

Definition req_errors (l : list Effect) : list (OutReq * JsError) :=
  flat_map (fun e => match e with ReqEmitError q err => [(q, err)] | _ => [] end) l.

Definition timed_out_count (l : list Effect) : nat :=
  length (filter (fun e => match e with ConnEmit EvTimedOut => true | _ => false end) l).

(** ** Concrete connections used to exercise the statements *)

Definition opts0 : ChannelOptions := mkChannelOptions 1000 100.

Definition conn0 : Conn := TChannelConnectionBase opts0 (1 # 2).

(** Two outgoing requests (TTL 50 and the default) and one incoming one. *)
Definition conn3 : Conn :=
  runs [CallRequest 0 1%N (Some (mkAdmOptions (Some 50) None));
        CallRequest 5 2%N None;
        CallHandleCallRequest 7 (mkInReq 9%N 100 None)] conn0.

(** ** States and predicates the statements speak of *)

(** The state after the outgoing sweep has passed over the entries [rest],
    the entries [pre] staying as they are. *)
Definition sweptOut (now : Z) (pre rest : table ClientOp) (s : Conn) : Conn :=
  let gone := filter (expired_out now) rest in
  with_lastTimeoutTime (match gone with [] => lastTimeoutTime s | _ => now end)
    (with_effects (effects s ++ timeout_deliveries now rest)
       (with_pending (mkPending (p_in (pending s))
                                (p_out (pending s) - Z.of_nat (length gone)))
          (with_outOps (pre ++ filter (fun kv => negb (expired_out now kv)) rest) s))).

(** The state after the incoming sweep has passed over the entries [rest]. *)
Definition sweptIn (now : Z) (pre rest : table nat) (s : Conn) : Conn :=
  let gone := filter (expired_in now (srvCalls s)) rest in
  with_pending (mkPending (p_in (pending s) - Z.of_nat (length gone))
                          (p_out (pending s)))
    (with_inOps
       (pre ++ filter (fun kv => negb (expired_in now (srvCalls s) kv)) rest) s).

(** One whole sweep that finds the connection open and unmarked. *)
Definition swept (now : Z) (r : Q) (s : Conn) : Conn :=
  let s1 := sweptOut now [] (outOps s) s in
  let s2 := sweptIn now [] (inOps s1) s1 in
  let d := getTimeoutDelay r s2 in
  with_timer (Some d) (with_effects (effects s2 ++ [SetTimeout d]) s2).

Definition is_defined {A} (kv : Id * jsval A) : bool :=
  match snd kv with
  | obj _ => true
  | undefined => false
  end.

Definition clear_effects (t : option Q) : list Effect :=
  match t with
  | Some d => [ClearTimeout d]
  | None => []
  end.

(** What a first teardown announces before it drains the tables. *)
Definition reset_announce (err : JsError) (s : Conn) : list Effect :=
  Log (if isError err then Warn else Info) "resetting connection"
      (MetaReset err (remoteName s)
                 (length (Table.keys (inOps s))) (length (Table.keys (outOps s)))
                 (p_in (pending s)) (p_out (pending s)))
  :: (if isError err then [ConnEmit (EvError err)] else []).

(** The state after a first teardown that ran to its end. *)
Definition torn (err0 : option JsError) (s : Conn) : Conn :=
  let err := reset_error err0 in
  mkConn (options s) (remoteName s) None [] [] (mkPending 0 0)
         (lastTimeoutTime s) true (srvCalls s) (responses s)
         (effects s ++ clear_effects (timer s) ++ reset_announce err s
            ++ reset_deliveries err (outOps s)).

Definition keeps {A} (P : Conn -> Prop) (m : M A) : Prop :=
  forall s, P s -> P (final (m s)).

(** The calls that create no activation and touch none. *)
Definition leaves_calls (c : Call) : bool :=
  match c with
  | CallHandleCallRequest _ _ | CallBuildResponse _ | CallOpDone _ => false
  | _ => true
  end.

(** A call that is neither a sweep nor a teardown. *)
Definition quiet (c : Call) : bool :=
  match c with
  | CallOnTimeoutCheck _ _ | CallResetAll _ | CallClose => false
  | _ => true
  end.

(** The state of a first teardown when it starts to drain the tables. *)
Definition announced (err0 : option JsError) (s : Conn) : Conn :=
  with_effects (effects s ++ clear_effects (timer s)
                  ++ reset_announce (reset_error err0) s)
    (with_closing true (with_timer None s)).

Fixpoint all_fresh (cs : list Call) (s : Conn) : bool :=
  match cs with
  | [] => true
  | c :: cs' => fresh c s && all_fresh cs' (run c s)
  end.

(** The connection of [conn3] after a local close. *)
Definition conn3_closed : Conn := run CallClose conn3.




Definition is_done (h : nat) (s : Conn) : Prop :=
  exists x, nth_error (srvCalls s) h = Some x /\ sc_done x = true.

(** [conn3] after the handler built a response and began to send it. *)
Definition conn3_streaming : Conn :=
  runs [CallBuildResponse 0; CallSetResState 0 (Later 1)] conn3.


(** ** The request error listener and further vocabulary *)

(** The call [op.res.sendError(codeString, message)] that [onReqError]
    makes on the operation's response. *)
Record SendError : Type := mkSendError {
  se_res : nat;
  se_code : string;
  se_message : string
}.

(** [err.type === 'tchannel.timeout-error'] *)
Definition is_timeout_error (e : JsError) : bool :=
  opt_string_eqb (err_type e) (Some "tchannel.timeout-error"%string).

(** [onReqError] of activation [h], up to the call of [sendError], which
    it returns: what the response does with it is the response's own.
    [errName] is the value of [err.name || err.constructor.name] and
    [message] that of [err.message], read from the error object. *)
Definition onReqError (h : nat) (err : JsError) (errName message : string)
  : M (option SendError) :=
  calls <- gets srvCalls ;;
  match nth_error calls h with
  | None => ret None
  | Some c =>
      (match sop_res (sc_op c) with
       | None => buildResponse h ;; ret tt
       | Some _ => ret tt
       end) ;;
      calls' <- gets srvCalls ;;
      match nth_error calls' h with
      | None => ret None
      | Some c' =>
          match sop_res (sc_op c') with
          | None =>
              throw (NativeTypeError
                       "Cannot read property 'sendError' of undefined")
          | Some r =>
              if is_timeout_error err
              then ret (Some (mkSendError r "Timeout" message))
              else ret (Some (mkSendError r "UnexpectedError"
                                (errName ++ ": " ++ message)%string))
          end
      end
  end.

(** The error frame [onReqError] asks the response [r] to send. *)
Definition error_frame (err : JsError) (errName message : string) (r : nat)
  : SendError :=
  if is_timeout_error err
  then mkSendError r "Timeout" message
  else mkSendError r "UnexpectedError" (errName ++ ": " ++ message)%string.

(** The number of timers armed in an effect log. *)
Definition armed (l : list Effect) : nat :=
  length (filter (fun e => match e with SetTimeout _ => true | _ => false end) l).





(** Every entry of the incoming table refers to the activation that
    registered it under that ID, and that activation is not done. *)
Definition live_entries (s : Conn) : Prop :=
  forall k v, In (k, v) (inOps s) ->
    exists h c, v = obj h /\ nth_error (srvCalls s) h = Some c
                /\ sc_id c = k /\ sc_done c = false.

(** The keys of a table are in ascending order, as [Object.keys] lists the
    integer-like property names of an object. *)
Definition ascending {A} (t : table A) : Prop :=
  StronglySorted N.lt (Table.keys t).



(** * Properties *)

(** ** Tables *)

Module TableFacts.
Section Facts.
Context {A : Type}.
Implicit Types (t pre rest : table A) (k : Id) (v : jsval A).

Lemma keys_app pre rest :
  Table.keys (pre ++ rest) = Table.keys pre ++ Table.keys rest.
Proof. apply map_app. Qed.

Lemma get_app_notin pre rest k :
  ~ In k (Table.keys pre) -> Table.get (pre ++ rest) k = Table.get rest k.
Proof.
  induction pre as [|[k' v'] pre IH]; simpl; intros Hk; [reflexivity|].
  destruct (N.eqb_spec k k') as [->|_]; [tauto|].
  apply IH; tauto.
Qed.

Lemma delete_app_notin pre rest k :
  ~ In k (Table.keys pre) ->
  Table.delete k (pre ++ rest) = pre ++ Table.delete k rest.
Proof.
  induction pre as [|[k' v'] pre IH]; simpl; intros Hk; [reflexivity|].
  destruct (N.eqb_spec k k') as [->|_]; [tauto|].
  rewrite IH by tauto; reflexivity.
Qed.

Lemma get_head k v rest : Table.get ((k, v) :: rest) k = v.
Proof. simpl; rewrite N.eqb_refl; reflexivity. Qed.

Lemma delete_head k v rest : Table.delete k ((k, v) :: rest) = rest.
Proof. simpl; rewrite N.eqb_refl; reflexivity. Qed.

Lemma NoDup_app_head pre k v rest :
  NoDup (Table.keys (pre ++ (k, v) :: rest)) -> ~ In k (Table.keys pre).
Proof.
  rewrite keys_app; simpl; intros H Hin.
  apply NoDup_remove_2 in H; apply H, in_or_app; auto.
Qed.

Lemma get_obj_in t k a : Table.get t k = obj a -> In (k, obj a) t.
Proof.
  induction t as [|[k' v'] t IH]; simpl; [discriminate|].
  destruct (N.eqb_spec k k') as [->|_]; intros H; [left; congruence|auto].
Qed.

Lemma in_keys t k v : In (k, v) t -> In k (Table.keys t).
Proof. intros H; apply (in_map fst) in H; exact H. Qed.

Lemma get_notin t k : ~ In k (Table.keys t) -> Table.get t k = undefined.
Proof.
  induction t as [|[k' v'] t IH]; simpl; intros Hk; [reflexivity|].
  destruct (N.eqb_spec k k') as [->|_]; [tauto|apply IH; tauto].
Qed.

Lemma in_get t k v : NoDup (Table.keys t) -> In (k, v) t -> Table.get t k = v.
Proof.
  induction t as [|[k' v'] t IH]; simpl; intros Hnd Hin; [tauto|].
  inversion Hnd as [|? ? Hk Hnd']; subst.
  destruct Hin as [E|Hin].
  - inversion E; subst; rewrite N.eqb_refl; reflexivity.
  - destruct (N.eqb_spec k k') as [->|_]; [|auto].
    exfalso; apply Hk; eapply in_keys; eauto.
Qed.

Lemma has_key_false t k : has_key k t = false -> ~ In k (Table.keys t).
Proof.
  unfold has_key; intros H Hin.
  assert (existsb (N.eqb k) (Table.keys t) = true) as E
    by (apply existsb_exists; exists k; split; [assumption|apply N.eqb_refl]).
  congruence.
Qed.

(** Creating a property. *)
Lemma set_fresh_split t k v :
  ~ In k (Table.keys t) ->
  exists pre rest, t = pre ++ rest /\ Table.set k v t = pre ++ (k, v) :: rest.
Proof.
  induction t as [|[k' v'] t IH]; simpl; intros Hk.
  - exists [], []; auto.
  - destruct (N.eqb_spec k k') as [->|_]; [tauto|].
    destruct (N.ltb k k').
    + exists [], ((k', v') :: t); auto.
    + destruct IH as (pre & rest & -> & ->); [tauto|].
      exists ((k', v') :: pre), rest; auto.
Qed.

Lemma length_set_fresh t k v :
  ~ In k (Table.keys t) -> length (Table.set k v t) = S (length t).
Proof.
  intros H; destruct (set_fresh_split t k v H) as (pre & rest & -> & ->).
  rewrite !length_app; simpl; lia.
Qed.

Lemma NoDup_set_fresh t k v :
  ~ In k (Table.keys t) -> NoDup (Table.keys t) ->
  NoDup (Table.keys (Table.set k v t)).
Proof.
  intros H; destruct (set_fresh_split t k v H) as (pre & rest & -> & ->).
  rewrite !keys_app in *; simpl; intros Hnd.
  apply NoDup_Add with (a := k) (l := Table.keys pre ++ Table.keys rest).
  - apply Add_app.
  - split; assumption.
Qed.

Lemma forallb_set_fresh (p : Id * jsval A -> bool) t k v :
  ~ In k (Table.keys t) -> forallb p t = true -> p (k, v) = true ->
  forallb p (Table.set k v t) = true.
Proof.
  intros H; destruct (set_fresh_split t k v H) as (pre & rest & -> & ->).
  rewrite !forallb_app; simpl; intros E Hp; rewrite Hp.
  apply andb_true_iff in E; destruct E as [-> ->]; reflexivity.
Qed.

Lemma get_set t k v : Table.get (Table.set k v t) k = v.
Proof.
  induction t as [|[k' v'] t IH]; simpl.
  - rewrite N.eqb_refl; reflexivity.
  - destruct (N.eqb_spec k k') as [->|Hne]; simpl.
    + rewrite N.eqb_refl; reflexivity.
    + destruct (N.ltb k k'); simpl.
      * rewrite N.eqb_refl; reflexivity.
      * destruct (N.eqb_spec k k'); [contradiction|assumption].
Qed.

(** Deleting a property. *)
Lemma in_delete t k x : In x (Table.delete k t) -> In x t.
Proof.
  induction t as [|[k' v'] t IH]; simpl; [tauto|].
  destruct (N.eqb k k'); simpl; intuition.
Qed.

Lemma length_delete t k :
  In k (Table.keys t) -> S (length (Table.delete k t)) = length t.
Proof.
  induction t as [|[k' v'] t IH]; simpl; [tauto|].
  destruct (N.eqb_spec k k') as [->|Hne]; [reflexivity|].
  intros [E|Hin]; [congruence|]; simpl; rewrite IH; auto.
Qed.

Lemma NoDup_delete t k :
  NoDup (Table.keys t) -> NoDup (Table.keys (Table.delete k t)).
Proof.
  induction t as [|[k' v'] t IH]; simpl; intros Hnd; [constructor|].
  inversion Hnd as [|? ? Hk Hnd']; subst.
  destruct (N.eqb k k'); [assumption|]; simpl; constructor; auto.
  intros Hin; apply Hk.
  apply in_map_iff in Hin; destruct Hin as ([k2 v2] & E & Hin); simpl in E; subst.
  eapply in_keys, in_delete; eauto.
Qed.

Lemma forallb_delete (p : Id * jsval A -> bool) t k :
  forallb p t = true -> forallb p (Table.delete k t) = true.
Proof.
  induction t as [|[k' v'] t IH]; simpl; [auto|].
  intros E; apply andb_true_iff in E; destruct E as [E1 E2].
  destruct (N.eqb k k'); [assumption|]; simpl; rewrite E1; auto.
Qed.

Lemma NoDup_filter_keys (p : Id * jsval A -> bool) t :
  NoDup (Table.keys t) -> NoDup (Table.keys (filter p t)).
Proof.
  induction t as [|[k' v'] t IH]; simpl; intros Hnd; [constructor|].
  inversion Hnd as [|? ? Hk Hnd']; subst.
  destruct (p (k', v')); simpl; auto.
  constructor; auto.
  intros Hin; apply Hk.
  apply in_map_iff in Hin; destruct Hin as ([k2 v2] & E & Hin); simpl in E; subst.
  apply filter_In in Hin; destruct Hin as [Hin _]; eapply in_keys; eauto.
Qed.

Lemma forallb_filter (p q : Id * jsval A -> bool) t :
  forallb p t = true -> forallb p (filter q t) = true.
Proof.
  induction t as [|x t IH]; simpl; [auto|].
  intros E; apply andb_true_iff in E; destruct E as [E1 E2].
  destruct (q x); simpl; [rewrite E1|]; auto.
Qed.

Lemma length_filter_split (p : Id * jsval A -> bool) t :
  (length (filter (fun x => negb (p x)) t) + length (filter p t) = length t)%nat.
Proof.
  induction t as [|x t IH]; simpl; [reflexivity|].
  destruct (p x); simpl; lia.
Qed.
End Facts.
End TableFacts.

(** ** The sweep loops in closed form *)

Ltac conn_norm :=
  lazy beta iota zeta delta
    [options remoteName timer inOps outOps pending lastTimeoutTime closing
     srvCalls responses effects p_in p_out
     with_timer with_inOps with_outOps with_pending with_lastTimeoutTime
     with_closing with_srvCalls with_responses with_effects].

Ltac conn_norm_in H :=
  lazy beta iota zeta delta
    [options remoteName timer inOps outOps pending lastTimeoutTime closing
     srvCalls responses effects p_in p_out
     with_timer with_inOps with_outOps with_pending with_lastTimeoutTime
     with_closing with_srvCalls with_responses with_effects] in H.

(** Runs a method body as far as its next undetermined test. *)
Ltac m_norm :=
  lazy beta iota zeta delta
    [bind gets modify ret throw effect final snd negb
     delete_outOp delete_inOp dec_pending_out dec_pending_in
     inc_pending_out inc_pending_in set_call read_timedOut read_req
     options remoteName timer inOps outOps pending lastTimeoutTime closing
     srvCalls responses effects p_in p_out
     with_timer with_inOps with_outOps with_pending with_lastTimeoutTime
     with_closing with_srvCalls with_responses with_effects].

Lemma checkOut_loop (now : Z) (rest pre : table ClientOp) (s : Conn) :
  outOps s = pre ++ rest ->
  NoDup (Table.keys (pre ++ rest)) ->
  forallb out_slot_ok rest = true ->
  forEach (checkOutOp now) (Table.keys rest) s = (Ret tt, sweptOut now pre rest s).
Proof.
  revert pre s; induction rest as [|[k v] rest IH]; intros pre s Hout Hnd Hok.
  - unfold sweptOut; cbn [forEach Table.keys map filter length timeout_deliveries flat_map].
    destruct s as [o rn tm io oo [pi po] lt cl sc rs ef]; conn_norm; conn_norm_in Hout.
    unfold ret; subst oo.
    rewrite !app_nil_r, Z.sub_0_r; reflexivity.
  - cbn [forallb] in Hok; apply andb_true_iff in Hok; destruct Hok as [Hv Hok].
    unfold out_slot_ok in Hv; cbn [snd] in Hv.
    destruct v as [|op]; [discriminate|].
    apply andb_true_iff in Hv; destruct Hv as [Hv _]; apply negb_true_iff in Hv.
    pose proof (TableFacts.NoDup_app_head _ _ _ _ Hnd) as Hk.
    destruct s as [o rn tm io oo [pi po] lt cl sc rs ef]; conn_norm_in Hout; subst oo.
    cbn [Table.keys map fst forEach].
    unfold bind at 1.
    unfold checkOutOp, onReqTimeout; m_norm.
    rewrite TableFacts.get_app_notin, TableFacts.get_head by assumption.
    m_norm; rewrite Hv.
    assert (expired_out now (k, obj op) = (oreq_ttl (cop_req op) <? now - cop_start op))
      as Hexp' by reflexivity.
    destruct (oreq_ttl (cop_req op) <? now - cop_start op) eqn:Hexp; m_norm.
    + rewrite TableFacts.delete_app_notin, TableFacts.delete_head by assumption.
      rewrite (IH pre).
      * unfold sweptOut, timeout_deliveries; cbn [filter flat_map snd].
        rewrite !Hexp'; cbn [negb length app]; conn_norm.
        f_equal; f_equal.
        -- f_equal; lia.
        -- destruct (filter _ rest); reflexivity.
        -- rewrite <- app_assoc; reflexivity.
      * reflexivity.
      * rewrite TableFacts.keys_app in *; cbn [Table.keys map fst] in Hnd.
        apply NoDup_remove_1 in Hnd; exact Hnd.
      * exact Hok.
    + rewrite (IH (pre ++ [(k, obj op)])).
      * unfold sweptOut, timeout_deliveries; cbn [filter flat_map snd].
        rewrite !Hexp'; cbn [negb length app]; conn_norm.
        rewrite <- app_assoc; reflexivity.
      * conn_norm; rewrite <- app_assoc; reflexivity.
      * rewrite <- app_assoc; exact Hnd.
      * exact Hok.
Qed.

Lemma checkIn_loop (now : Z) (rest pre : table nat) (s : Conn) :
  inOps s = pre ++ rest ->
  NoDup (Table.keys (pre ++ rest)) ->
  forEach (checkInOp now) (Table.keys rest) s = (Ret tt, sweptIn now pre rest s).
Proof.
  revert pre s; induction rest as [|[k v] rest IH]; intros pre s Hin Hnd.
  - unfold sweptIn; cbn [forEach Table.keys map filter length].
    destruct s as [o rn tm io oo [pi po] lt cl sc rs ef]; conn_norm; conn_norm_in Hin.
    unfold ret; subst io.
    rewrite !app_nil_r, Z.sub_0_r; reflexivity.
  - pose proof (TableFacts.NoDup_app_head _ _ _ _ Hnd) as Hk.
    assert (NoDup (Table.keys (pre ++ rest))) as Hnd'.
    { rewrite TableFacts.keys_app in *; cbn [Table.keys map fst] in Hnd.
      apply NoDup_remove_1 in Hnd; exact Hnd. }
    destruct s as [o rn tm io oo [pi po] lt cl sc rs ef]; conn_norm_in Hin; subst io.
    cbn [Table.keys map fst forEach].
    unfold bind at 1.
    unfold checkInOp; m_norm.
    rewrite TableFacts.get_app_notin, TableFacts.get_head by assumption.
    unfold sweptIn; conn_norm; cbn [filter].
    destruct (expired_in now sc (k, v)) eqn:Hexp; cbn [negb length].
    + unfold expired_in in Hexp; cbn [snd] in Hexp.
      destruct v as [|h]; [discriminate|].
      destruct (nth_error sc h) as [c|]; [|discriminate].
      rewrite Hexp; m_norm.
      rewrite TableFacts.delete_app_notin, TableFacts.delete_head by assumption.
      rewrite (IH pre); [|reflexivity|exact Hnd'].
      unfold sweptIn; conn_norm.
      do 3 f_equal; lia.
    + assert (forEach (checkInOp now) (Table.keys rest)
                (mkConn o rn tm (pre ++ (k, v) :: rest) oo (mkPending pi po)
                        lt cl sc rs ef) =
              (Ret tt, sweptIn now (pre ++ [(k, v)]) rest
                (mkConn o rn tm (pre ++ (k, v) :: rest) oo (mkPending pi po)
                        lt cl sc rs ef))) as E.
      { apply IH; conn_norm; rewrite <- app_assoc; [reflexivity|exact Hnd]. }
      unfold sweptIn in E; conn_norm_in E; rewrite <- app_assoc in E.
      unfold expired_in in Hexp; cbn [snd] in Hexp.
      destruct v as [|h]; [exact E|].
      destruct (nth_error sc h) as [c|]; [|exact E].
      rewrite Hexp; exact E.
Qed.

(** A property of the state that every pass of a loop body keeps is kept
    by the loop, however it ends. *)
Lemma forEach_keeps {K} (P : Conn -> Prop) (body : K -> M unit) :
  (forall k s, P s -> P (final (body k s))) ->
  forall ks s, P s -> P (final (forEach body ks s)).
Proof.
  intros Hbody ks; induction ks as [|k ks IH]; intros s Hs; [exact Hs|].
  cbn [forEach]; unfold bind.
  specialize (Hbody k s Hs).
  destruct (body k s) as [[[]|e] s1]; unfold final in *; cbn [snd] in *; auto.
Qed.

Lemma onTimeoutCheck_sweeps (now : Z) (r : Q) (s : Conn) :
  NoDup (Table.keys (inOps s)) ->
  NoDup (Table.keys (outOps s)) ->
  forallb out_slot_ok (outOps s) = true ->
  closing s = false ->
  lastTimeoutTime s = 0 ->
  onTimeoutCheck now r s = (Ret tt, swept now r s).
Proof.
  intros Hin Hout Hok Hcl Hlast.
  unfold onTimeoutCheck, checkOutOpsForTimeout, checkInOpsForTimeout.
  unfold bind at 1, gets at 1; rewrite Hcl.
  unfold bind at 1, gets at 1; rewrite Hlast; cbn [Z.eqb negb].
  unfold bind at 1, bind at 1, gets at 1.
  rewrite (checkOut_loop now (outOps s) [] s eq_refl Hout Hok).
  unfold bind at 1, bind at 1, gets at 1.
  rewrite (checkIn_loop now _ [] _ eq_refl) by exact Hin.
  reflexivity.
Qed.

(** Teardown. *)

Lemma eachInOp_loop (rest pre : table nat) (s : Conn) :
  inOps s = pre ++ rest ->
  NoDup (Table.keys (pre ++ rest)) ->
  forEach eachInOp (Table.keys rest) s = (Ret tt, with_inOps pre s).
Proof.
  revert s; induction rest as [|[k v] rest IH]; intros s Hin Hnd.
  - cbn [forEach Table.keys map]; unfold ret.
    rewrite app_nil_r in Hin; rewrite <- Hin.
    destruct s; reflexivity.
  - pose proof (TableFacts.NoDup_app_head _ _ _ _ Hnd) as Hk.
    destruct s as [o rn tm io oo pd lt cl sc rs ef]; conn_norm_in Hin; subst io.
    cbn [Table.keys map fst forEach]; unfold bind at 1, eachInOp; m_norm.
    rewrite TableFacts.delete_app_notin, TableFacts.delete_head by assumption.
    rewrite IH; [reflexivity|reflexivity|].
    rewrite TableFacts.keys_app in *; cbn [Table.keys map fst] in Hnd.
    apply NoDup_remove_1 in Hnd; exact Hnd.
Qed.

Lemma eachOutOp_loop (err : JsError) (rest pre : table ClientOp) (s : Conn) :
  outOps s = pre ++ rest ->
  NoDup (Table.keys (pre ++ rest)) ->
  forallb is_defined rest = true ->
  forEach (eachOutOp err) (Table.keys rest) s =
  (Ret tt, with_effects (effects s ++ reset_deliveries err rest) (with_outOps pre s)).
Proof.
  revert s; induction rest as [|[k v] rest IH]; intros s Hout Hnd Hok.
  - cbn [forEach Table.keys map reset_deliveries flat_map]; unfold ret.
    rewrite app_nil_r in Hout; rewrite <- Hout, app_nil_r.
    destruct s; reflexivity.
  - pose proof (TableFacts.NoDup_app_head _ _ _ _ Hnd) as Hk.
    cbn [forallb] in Hok; apply andb_true_iff in Hok; destruct Hok as [Hv Hok].
    destruct v as [|op]; [discriminate|].
    destruct s as [o rn tm io oo pd lt cl sc rs ef]; conn_norm_in Hout; subst oo.
    cbn [Table.keys map fst forEach]; unfold bind at 1, eachOutOp; m_norm.
    rewrite TableFacts.get_app_notin, TableFacts.get_head by assumption.
    rewrite TableFacts.delete_app_notin, TableFacts.delete_head by assumption.
    rewrite IH; [|reflexivity| |exact Hok].
    + unfold reset_deliveries; cbn [flat_map snd app]; conn_norm.
      rewrite <- app_assoc; reflexivity.
    + rewrite TableFacts.keys_app in *; cbn [Table.keys map fst] in Hnd.
      apply NoDup_remove_1 in Hnd; exact Hnd.
Qed.

Lemma clearTimeoutTimer_eq (s : Conn) :
  clearTimeoutTimer s =
  (Ret tt, with_timer None (with_effects (effects s ++ clear_effects (timer s)) s)).
Proof.
  unfold clearTimeoutTimer; m_norm.
  destruct s as [o rn [d|] io oo pd lt cl sc rs ef]; m_norm; cbn [clear_effects];
    rewrite ?app_nil_r; reflexivity.
Qed.

Lemma resetAll_closing (err0 : option JsError) (s : Conn) :
  closing s = true ->
  resetAll err0 s =
  (Ret tt, with_timer None (with_effects (effects s ++ clear_effects (timer s)) s)).
Proof.
  intros Hcl; unfold resetAll, clearTimeoutTimer.
  destruct s as [o rn [d|] io oo pd lt cl sc rs ef]; conn_norm_in Hcl; subst cl;
    m_norm; cbn [clear_effects]; rewrite ?app_nil_r; reflexivity.
Qed.

Lemma resetAll_first (err0 : option JsError) (s : Conn) :
  NoDup (Table.keys (inOps s)) ->
  NoDup (Table.keys (outOps s)) ->
  forallb is_defined (outOps s) = true ->
  closing s = false ->
  resetAll err0 s = (Ret tt, torn err0 s).
Proof.
  intros Hin Hout Hok Hcl; unfold resetAll.
  unfold bind at 1; rewrite clearTimeoutTimer_eq.
  destruct s as [o rn tm io oo pd lt cl sc rs ef]; conn_norm_in Hcl; subst cl.
  conn_norm_in Hin; conn_norm_in Hout; conn_norm_in Hok.
  unfold bind at 1, gets at 1; conn_norm.
  unfold bind at 1, modify at 1; conn_norm.
  unfold bind at 1, gets at 1; conn_norm.
  unfold bind at 1, gets at 1; conn_norm.
  unfold bind at 1, gets at 1; conn_norm.
  unfold bind at 1, gets at 1; conn_norm.
  unfold bind at 1, effect at 1, modify at 1; conn_norm.
  unfold bind at 1.
  assert (forall (b : bool) e s0,
             (if b then effect e else ret tt) s0 =
             (Ret tt, with_effects (effects s0 ++ (if b then [e] else [])) s0)) as Hif.
  { intros [|] e s0; m_norm; rewrite ?app_nil_r; destruct s0; reflexivity. }
  rewrite Hif; conn_norm.
  unfold bind at 1.
  rewrite (eachInOp_loop io []); [|reflexivity|exact Hin]; conn_norm.
  unfold bind at 1.
  rewrite (eachOutOp_loop _ oo []); [|reflexivity|exact Hout|exact Hok]; conn_norm.
  unfold modify, torn, reset_announce; conn_norm.
  rewrite <- !app_assoc; reflexivity.
Qed.

(** ** Every call keeps the connection well formed *)

Lemma length_list_set {A} (n : nat) (x : A) (l : list A) :
  length (list_set n x l) = length l.
Proof.
  revert n; induction l as [|y l IH]; intros [|n]; simpl; auto.
Qed.

Lemma in_slot_ok_mono (n m : nat) (t : table nat) :
  (n <= m)%nat -> forallb (in_slot_ok n) t = true -> forallb (in_slot_ok m) t = true.
Proof.
  intros Hnm; induction t as [|[k v] t IH]; simpl; [auto|].
  intros E; apply andb_true_iff in E; destruct E as [E1 E2].
  rewrite IH by assumption; rewrite andb_true_r.
  unfold in_slot_ok in *; simpl in *; destruct v as [|h]; [discriminate|].
  apply Nat.ltb_lt in E1; apply Nat.ltb_lt; lia.
Qed.

Lemma out_slot_ok_defined (t : table ClientOp) :
  forallb out_slot_ok t = true -> forallb is_defined t = true.
Proof.
  induction t as [|[k v] t IH]; simpl; [auto|].
  intros E; apply andb_true_iff in E; destruct E as [E1 E2].
  rewrite IH by assumption; rewrite andb_true_r.
  destruct v; [discriminate|reflexivity].
Qed.

Lemma wf_new (o : ChannelOptions) (r : Q) : wf (TChannelConnectionBase o r).
Proof.
  unfold TChannelConnectionBase, startTimeoutTimer; m_norm.
  constructor; conn_norm; try reflexivity; constructor.
Qed.

Lemma wf_request (now : Z) (id : Id) (o : option AdmOptions) (s : Conn) :
  has_key id (outOps s) = false -> wf s -> wf (final (request now id o s)).
Proof.
  intros Hfresh [H1 H2 H3 H4 H5 H6]; apply TableFacts.has_key_false in Hfresh.
  unfold request, buildOutgoingRequest; cbn [oreq_id].
  destruct s as [op rn tm io oo [pi po] lt cl sc rs ef]; m_norm.
  conn_norm_in H1; conn_norm_in H2; conn_norm_in H3; conn_norm_in H4;
    conn_norm_in H5; conn_norm_in H6; conn_norm_in Hfresh.
  constructor; conn_norm; auto.
  - apply TableFacts.NoDup_set_fresh; assumption.
  - apply TableFacts.forallb_set_fresh; auto.
    unfold out_slot_ok; cbn [snd fst cop_timedOut cop_req oreq_id negb andb].
    apply N.eqb_refl.
  - unfold Table.size in *; rewrite TableFacts.length_set_fresh by assumption. lia.
Qed.

Lemma wf_handleCallRequest (now : Z) (req : InReq) (s : Conn) :
  has_key (ireq_id req) (inOps s) = false -> wf s ->
  wf (final (handleCallRequest now req s)).
Proof.
  intros Hfresh [H1 H2 H3 H4 H5 H6]; apply TableFacts.has_key_false in Hfresh.
  unfold handleCallRequest; cbn [ireq_id].
  destruct s as [op rn tm io oo [pi po] lt cl sc rs ef]; m_norm.
  conn_norm_in H1; conn_norm_in H2; conn_norm_in H3; conn_norm_in H4;
    conn_norm_in H5; conn_norm_in H6; conn_norm_in Hfresh.
  constructor; conn_norm; auto.
  - apply TableFacts.NoDup_set_fresh; assumption.
  - apply TableFacts.forallb_set_fresh; auto.
    + eapply in_slot_ok_mono; [|eassumption]. rewrite length_app; simpl; lia.
    + unfold in_slot_ok; simpl. apply Nat.ltb_lt. rewrite length_app; simpl; lia.
  - unfold Table.size in *; rewrite TableFacts.length_set_fresh by assumption. lia.
Qed.

Lemma wf_popOutOp (id : Id) (s : Conn) : wf s -> wf (final (popOutOp id s)).
Proof.
  intros [H1 H2 H3 H4 H5 H6]; unfold popOutOp.
  destruct s as [op rn tm io oo [pi po] lt cl sc rs ef]; m_norm.
  conn_norm_in H1; conn_norm_in H2; conn_norm_in H3; conn_norm_in H4;
    conn_norm_in H5; conn_norm_in H6.
  destruct (Table.get oo id) as [|o] eqn:Hget; m_norm.
  - constructor; conn_norm; auto.
  - constructor; conn_norm; auto.
    + apply TableFacts.NoDup_delete; assumption.
    + apply TableFacts.forallb_delete; assumption.
    + apply TableFacts.get_obj_in, TableFacts.in_keys, TableFacts.length_delete in Hget.
      unfold Table.size in *; lia.
Qed.

Lemma wf_opDone (h : nat) (s : Conn) : wf s -> wf (final (opDone h s)).
Proof.
  intros [H1 H2 H3 H4 H5 H6]; unfold opDone.
  destruct s as [op rn tm io oo [pi po] lt cl sc rs ef]; m_norm.
  conn_norm_in H1; conn_norm_in H2; conn_norm_in H3; conn_norm_in H4;
    conn_norm_in H5; conn_norm_in H6.
  destruct (nth_error sc h) as [c|]; m_norm; [|constructor; conn_norm; auto].
  destruct (sc_done c); m_norm; [constructor; conn_norm; auto|].
  destruct (jsval_nat_eqb (Table.get io (sc_id c)) h) eqn:Hget; m_norm.
  - constructor; conn_norm; auto.
    + apply TableFacts.NoDup_delete; assumption.
    + rewrite length_list_set; apply TableFacts.forallb_delete; assumption.
    + destruct (Table.get io (sc_id c)) as [|h'] eqn:Hg; [discriminate|].
      apply TableFacts.get_obj_in, TableFacts.in_keys, TableFacts.length_delete in Hg.
      unfold Table.size in *; lia.
  - constructor; conn_norm; auto.
    rewrite length_list_set; assumption.
Qed.

Lemma wf_buildResponse (h : nat) (s : Conn) : wf s -> wf (final (buildResponse h s)).
Proof.
  intros [H1 H2 H3 H4 H5 H6]; unfold buildResponse.
  destruct s as [op rn tm io oo [pi po] lt cl sc rs ef]; m_norm.
  conn_norm_in H1; conn_norm_in H2; conn_norm_in H3; conn_norm_in H4;
    conn_norm_in H5; conn_norm_in H6.
  destruct (nth_error sc h) as [c|]; m_norm; [|constructor; conn_norm; auto].
  destruct (res_started rs (sop_res (sc_op c))); m_norm;
    constructor; conn_norm; auto.
  rewrite length_list_set; assumption.
Qed.

Lemma wf_setResState (r : nat) (st : ResState) (s : Conn) :
  wf s -> wf (final (setResState r st s)).
Proof.
  intros [H1 H2 H3 H4 H5 H6]; unfold setResState.
  destruct s as [op rn tm io oo [pi po] lt cl sc rs ef]; m_norm.
  destruct (nth_error rs r); m_norm; constructor; conn_norm; auto.
Qed.

Lemma wf_onTimeoutCheck (now : Z) (r : Q) (s : Conn) :
  wf s -> wf (final (onTimeoutCheck now r s)).
Proof.
  intros Hwf; pose proof Hwf as [H1 H2 H3 H4 H5 H6].
  destruct (closing s) eqn:Hcl.
  { unfold onTimeoutCheck; unfold bind at 1, gets at 1; rewrite Hcl; exact Hwf. }
  destruct (Z.eqb_spec (lastTimeoutTime s) 0) as [Hlast|Hlast].
  - rewrite onTimeoutCheck_sweeps by assumption.
    unfold final, swept, sweptIn, sweptOut; cbn [snd].
    destruct s as [op rn tm io oo [pi po] lt cl sc rs ef].
    conn_norm_in H1; conn_norm_in H2; conn_norm_in H3; conn_norm_in H4;
      conn_norm_in H5; conn_norm_in H6.
    constructor; conn_norm.
    + rewrite app_nil_l; apply TableFacts.NoDup_filter_keys; assumption.
    + rewrite app_nil_l; apply TableFacts.NoDup_filter_keys; assumption.
    + rewrite app_nil_l; apply TableFacts.forallb_filter; assumption.
    + rewrite app_nil_l; apply TableFacts.forallb_filter; assumption.
    + rewrite app_nil_l; unfold Table.size in *.
      pose proof (TableFacts.length_filter_split (expired_out now) oo). lia.
    + rewrite app_nil_l; unfold Table.size in *.
      pose proof (TableFacts.length_filter_split (expired_in now sc) io). lia.
  - unfold onTimeoutCheck; unfold bind at 1, gets at 1; rewrite Hcl.
    unfold bind at 1, gets at 1.
    apply Z.eqb_neq in Hlast; rewrite Hlast; cbn [negb].
    destruct s as [op rn tm io oo [pi po] lt cl sc rs ef]; m_norm.
    constructor; conn_norm; auto.
Qed.

Lemma wf_resetAll (err : option JsError) (s : Conn) :
  wf s -> wf (final (resetAll err s)).
Proof.
  intros Hwf; pose proof Hwf as [H1 H2 H3 H4 H5 H6].
  destruct (closing s) eqn:Hcl.
  - rewrite resetAll_closing by assumption.
    destruct s as [op rn tm io oo [pi po] lt cl sc rs ef]; m_norm.
    constructor; conn_norm; auto.
  - rewrite resetAll_first; auto using out_slot_ok_defined.
    unfold final, torn; cbn [snd]; constructor; conn_norm; try reflexivity; constructor.
Qed.

Lemma wf_run (c : Call) (s : Conn) : wf s -> fresh c s = true -> wf (run c s).
Proof.
  intros Hwf Hfresh; destruct c; cbn [run fresh] in *.
  - apply wf_request; [apply negb_true_iff|]; assumption.
  - apply wf_handleCallRequest; [apply negb_true_iff|]; assumption.
  - apply wf_popOutOp; assumption.
  - apply wf_onTimeoutCheck; assumption.
  - apply wf_buildResponse; assumption.
  - apply wf_setResState; assumption.
  - apply wf_opDone; assumption.
  - apply wf_resetAll; assumption.
  - apply wf_resetAll; assumption.
Qed.

Lemma reachable_wf (s : Conn) : reachable s -> wf s.
Proof.
  induction 1 as [o r|s c _ IH Hfresh]; [apply wf_new|apply wf_run; assumption].
Qed.

(** ** Properties kept by a method however it ends *)

Lemma keeps_bind {A B} (P : Conn -> Prop) (m : M A) (f : A -> M B) :
  keeps P m -> (forall a, keeps P (f a)) -> keeps P (bind m f).
Proof.
  intros Hm Hf s Hs; specialize (Hm s Hs); unfold bind, final in *.
  destruct (m s) as [[a|e] s1]; cbn [snd] in *; [apply Hf|]; assumption.
Qed.

Lemma keeps_forEach {K} (P : Conn -> Prop) (body : K -> M unit) (ks : list K) :
  (forall k, keeps P (body k)) -> keeps P (forEach body ks).
Proof.
  intros Hbody s Hs; apply forEach_keeps; [|assumption].
  intros k s0 Hs0; apply Hbody; assumption.
Qed.

Lemma keeps_ret {A} (P : Conn -> Prop) (a : A) : keeps P (ret a).
Proof. intros s Hs; exact Hs. Qed.

Lemma keeps_throw {A} (P : Conn -> Prop) (e : JsError) : keeps P (@throw A e).
Proof. intros s Hs; exact Hs. Qed.

Lemma keeps_gets {A} (P : Conn -> Prop) (f : Conn -> A) : keeps P (gets f).
Proof. intros s Hs; exact Hs. Qed.

Lemma keeps_modify (P : Conn -> Prop) (f : Conn -> Conn) :
  (forall s, P s -> P (f s)) -> keeps P (modify f).
Proof. intros Hf s Hs; apply Hf; assumption. Qed.

Ltac keeps_field :=
  let s := fresh "s" in
  let H := fresh "H" in
  intros s H; destruct s; conn_norm; conn_norm_in H; exact H.

(** Walks a method body, leaving the updates of the state that do not
    obviously keep the property. *)
Ltac keeps_walk :=
  repeat first
    [ apply keeps_ret | apply keeps_throw | apply keeps_gets
    | apply keeps_bind; [|intro]
    | apply keeps_forEach; intro
    | apply keeps_modify; keeps_field
    | match goal with
      | |- keeps _ (if ?b then _ else _) => destruct b
      | |- keeps _ (match ?x with _ => _ end) => destruct x
      end
    | progress cbv zeta ].

Ltac unfold_methods :=
  unfold request, handleCallRequest, popOutOp, onTimeoutCheck, buildResponse,
    setResState, opDone, close, resetAll, checkOutOpsForTimeout,
    checkInOpsForTimeout, checkOutOp, checkInOp, onReqTimeout, startTimeoutTimer,
    clearTimeoutTimer, eachInOp, eachOutOp, read_timedOut, read_req, effect,
    delete_outOp, delete_inOp, dec_pending_out, dec_pending_in,
    inc_pending_out, inc_pending_in, set_call.

Lemma srvCalls_kept (c : Call) (s : Conn) :
  leaves_calls c = true -> srvCalls (run c s) = srvCalls s.
Proof.
  intros Hc.
  assert (forall v s0, srvCalls s0 = v -> srvCalls (run c s0) = v) as H;
    [|apply H; reflexivity].
  intros v; destruct c; try discriminate; cbn [run];
    match goal with |- forall s, ?f s = v -> ?f (final (?m s)) = v =>
      change (keeps (fun s => f s = v) m) end;
    unfold_methods; keeps_walk.
Qed.

Lemma closing_stays (c : Call) (s : Conn) :
  closing s = true -> closing (run c s) = true.
Proof.
  revert s; destruct c; cbn [run];
    match goal with |- forall s, ?f s = ?v -> ?f (final (?m s)) = ?v =>
      change (keeps (fun s => f s = v) m) end;
    unfold_methods; keeps_walk.
  all: apply keeps_modify; intros s _; destruct s; reflexivity.
Qed.

Lemma quiet_keeps_closing (c : Call) (v : bool) (s : Conn) :
  quiet c = true -> closing s = v -> closing (run c s) = v.
Proof.
  intros Hq; revert s; destruct c; try discriminate; cbn [run];
    match goal with |- forall s, ?f s = ?v -> ?f (final (?m s)) = ?v =>
      change (keeps (fun s => f s = v) m) end;
    unfold_methods; keeps_walk.
Qed.

Lemma quiet_keeps_lastTimeoutTime (c : Call) (v : Z) (s : Conn) :
  quiet c = true -> lastTimeoutTime s = v -> lastTimeoutTime (run c s) = v.
Proof.
  intros Hq; revert s; destruct c; try discriminate; cbn [run];
    match goal with |- forall s, ?f s = ?v -> ?f (final (?m s)) = ?v =>
      change (keeps (fun s => f s = v) m) end;
    unfold_methods; keeps_walk.
Qed.


(** ** What a teardown does on any state *)

Lemma resetAll_drain (err0 : option JsError) (s : Conn) :
  closing s = false ->
  resetAll err0 s =
  (forEach eachInOp (Table.keys (inOps s)) ;;
   forEach (eachOutOp (reset_error err0)) (Table.keys (outOps s)) ;;
   modify (with_pending (mkPending 0 0))) (announced err0 s).
Proof.
  intros Hcl; unfold resetAll, announced, reset_announce, clearTimeoutTimer.
  destruct s as [op rn tm io oo pd lt cl sc rs ef]; conn_norm_in Hcl; subst cl.
  destruct tm as [d|]; destruct (isError (reset_error err0));
    m_norm; cbn [clear_effects app]; rewrite <- ?app_assoc; cbn [app];
    rewrite ?app_nil_r; reflexivity.
Qed.

(** After any call of [resetAll] the connection is closing and holds no
    timer, whether the call ran to its end or threw. *)
Lemma resetAll_post (err0 : option JsError) (s : Conn) :
  closing (final (resetAll err0 s)) = true /\ timer (final (resetAll err0 s)) = None.
Proof.
  destruct (closing s) eqn:Hcl.
  - rewrite resetAll_closing by assumption.
    destruct s; conn_norm_in Hcl; subst; m_norm; auto.
  - rewrite resetAll_drain by assumption.
    match goal with |- closing (final (?m ?x)) = true /\ _ =>
      change ((fun s' => closing s' = true /\ timer s' = None) (final (m x)));
      assert (keeps (fun s' => closing s' = true /\ timer s' = None) m) as Hk
    end.
    { unfold_methods; keeps_walk. }
    apply Hk; destruct s; split; reflexivity.
Qed.

(** The effects of a first teardown, up to the deliveries to requests. *)
Lemma resetAll_effects (err0 : option JsError) (s : Conn) :
  closing s = false ->
  exists tail,
    effects (final (resetAll err0 s)) =
    effects s ++ clear_effects (timer s) ++ reset_announce (reset_error err0) s ++ tail
    /\ conn_errors tail = [] /\ log_levels tail = [].
Proof.
  intros Hcl; rewrite resetAll_drain by assumption.
  set (pfx := effects s ++ clear_effects (timer s)
                ++ reset_announce (reset_error err0) s).
  match goal with |- exists tail, effects (final (?m ?x)) = _ /\ _ =>
    assert (keeps (fun s' => exists tail, effects s' = pfx ++ tail
                             /\ conn_errors tail = [] /\ log_levels tail = []) m)
      as Hk
  end.
  { unfold_methods; keeps_walk.
    intros s0 (tail & E & H1 & H2).
    match goal with q : OutReq |- _ =>
      exists (tail ++ [ReqEmitError q (reset_error err0)]) end.
    destruct s0; m_norm; conn_norm_in E; subst.
    rewrite <- app_assoc; split; [reflexivity|].
    unfold conn_errors, log_levels in *; rewrite !flat_map_app, H1, H2; auto. }
  destruct (Hk (announced err0 s)) as (tail & E & H1 & H2).
  - exists []; rewrite app_nil_r; repeat split; reflexivity.
  - exists tail; unfold pfx in E; rewrite E, <- !app_assoc; auto.
Qed.

(** ** Reachable states *)

Lemma reachable_runs (cs : list Call) (s : Conn) :
  reachable s -> all_fresh cs s = true -> reachable (runs cs s).
Proof.
  revert s; induction cs as [|c cs IH]; intros s Hs Hf; [exact Hs|].
  cbn [all_fresh] in Hf; apply andb_true_iff in Hf; destruct Hf as [Hc Hf].
  cbn [runs fold_left]; apply IH; [apply reach_call|]; assumption.
Defined.

Lemma reachable_conn0 : reachable conn0.
Proof. apply reach_new. Defined.

Lemma reachable_conn3 : reachable conn3.
Proof. apply reachable_runs; [apply reachable_conn0|reflexivity]. Defined.

Lemma sweep_keeps_closing (now : Z) (r : Q) (v : bool) (s : Conn) :
  closing s = v -> closing (final (onTimeoutCheck now r s)) = v.
Proof.
  revert s.
  change (keeps (fun s => closing s = v) (onTimeoutCheck now r)).
  unfold_methods; keeps_walk.
Qed.

Lemma quiet_keeps_timer (c : Call) (v : option Q) (s : Conn) :
  quiet c = true -> timer s = v -> timer (run c s) = v.
Proof.
  intros Hq; revert s; destruct c; try discriminate; cbn [run];
    match goal with |- forall s, ?f s = ?v -> ?f (final (?m s)) = ?v =>
      change (keeps (fun s => f s = v) m) end;
    unfold_methods; keeps_walk.
Qed.

(** A closing connection holds no timer. *)
Lemma closing_no_timer (s : Conn) :
  reachable s -> closing s = true -> timer s = None.
Proof.
  induction 1 as [o r|s c Hs IH Hfresh]; [discriminate|].
  destruct (quiet c) eqn:Hq.
  - intros Hcl; apply quiet_keeps_timer; [assumption|].
    apply IH; destruct (closing s) eqn:E; [reflexivity|].
    rewrite (quiet_keeps_closing c false s Hq E) in Hcl; discriminate.
  - destruct c; try discriminate; cbn [run]; intros Hcl.
    + destruct (closing s) eqn:E.
      * unfold onTimeoutCheck in *; unfold bind at 1, gets at 1.
        rewrite E; apply IH; reflexivity.
      * rewrite (sweep_keeps_closing now r false s E) in Hcl; discriminate.
    + apply resetAll_post.
    + apply resetAll_post.
Qed.



(** ** Teardown *)


Lemma eta_no_timer (s : Conn) :
  timer s = None ->
  with_timer None (with_effects (effects s ++ clear_effects (timer s)) s) = s.
Proof.
  destruct s as [op rn tm io oo pd lt cl sc rs ef]; conn_norm; intros ->.
  cbn [clear_effects]; rewrite app_nil_r; reflexivity.
Qed.

(** C3. Calling [resetAll] a second time, with any error, leaves the state
    exactly as the first call left it and returns normally: no table,
    counter or flag changes and nothing is emitted, logged or delivered.
    More generally, on any state whose [closing] flag is set [resetAll]
    changes no table, counter or flag and emits, logs and delivers nothing
    (it only lets go of a timer handle should one still be held), and on a
    reachable closing state it changes nothing at all. *)
Theorem resetAll_idempotent (s : Conn) (err err' : option JsError) :
  resetAll err' (final (resetAll err s)) = (Ret tt, final (resetAll err s))
  /\ (closing s = true ->
      exists s',
        resetAll err s = (Ret tt, s')
        /\ inOps s' = inOps s /\ outOps s' = outOps s /\ pending s' = pending s
        /\ closing s' = true /\ lastTimeoutTime s' = lastTimeoutTime s
        /\ srvCalls s' = srvCalls s /\ responses s' = responses s
        /\ conn_errors (effects s') = conn_errors (effects s)
        /\ timed_out_count (effects s') = timed_out_count (effects s)
        /\ req_errors (effects s') = req_errors (effects s)
        /\ log_levels (effects s') = log_levels (effects s)
        /\ timer s' = None)
  /\ (closing s = true -> reachable s -> resetAll err s = (Ret tt, s)).
Proof.
  split; [|split].
  - destruct (resetAll_post err s) as [Hcl Ht].
    rewrite (resetAll_closing err' _ Hcl), eta_no_timer by assumption; reflexivity.
  - intros Hcl; rewrite (resetAll_closing err s Hcl).
    eexists; split; [reflexivity|].
    destruct s as [op rn tm io oo pd lt cl sc rs ef]; conn_norm; conn_norm_in Hcl.
    repeat split; try assumption;
      unfold conn_errors, req_errors, log_levels, timed_out_count;
      rewrite ?flat_map_app, ?filter_app; destruct tm; cbn; rewrite ?app_nil_r;
      reflexivity.
  - intros Hcl Hs; rewrite (resetAll_closing err s Hcl), eta_no_timer; [reflexivity|].
    apply closing_no_timer; assumption.
Qed.

Lemma resetAll_idempotent_witness :
  resetAll None conn3_closed = (Ret tt, conn3_closed).
Proof.
  apply (resetAll_idempotent conn3_closed None None).
  - reflexivity.
  - apply (reach_call conn3 CallClose reachable_conn3); reflexivity.
Defined.








(** ** The two strikes of the sweeper *)

Lemma onTimeoutCheck_closing (now : Z) (r : Q) (s : Conn) :
  closing s = true -> onTimeoutCheck now r s = (Ret tt, s).
Proof.
  intros Hcl; unfold onTimeoutCheck; unfold bind at 1, gets at 1.
  rewrite Hcl; reflexivity.
Qed.

Lemma onTimeoutCheck_escalates (now : Z) (r : Q) (s : Conn) :
  closing s = false -> lastTimeoutTime s <> 0 ->
  onTimeoutCheck now r s =
  (Ret tt, with_effects (effects s ++ [ConnEmit EvTimedOut]) s).
Proof.
  intros Hcl Hlast; unfold onTimeoutCheck; unfold bind at 1, gets at 1.
  rewrite Hcl; unfold bind at 1, gets at 1.
  apply Z.eqb_neq in Hlast; rewrite Hlast; reflexivity.
Qed.





(** ** Finalizing an incoming operation *)

Lemma nth_error_list_set {A} (n m : nat) (x : A) (l : list A) :
  nth_error (list_set n x l) m =
  if Nat.eqb n m
  then match nth_error l n with Some _ => Some x | None => None end
  else nth_error l m.
Proof.
  revert n m; induction l as [|y l IH]; intros [|n] [|m]; cbn; try reflexivity.
  - destruct (Nat.eqb n m); reflexivity.
  - apply IH.
Qed.

Lemma jsval_nat_eqb_true (v : jsval nat) (h : nat) :
  jsval_nat_eqb v h = true <-> v = obj h.
Proof.
  destruct v as [|h']; cbn; [split; discriminate|].
  rewrite Nat.eqb_eq; split; congruence.
Qed.

Lemma opDone_done (h : nat) (s : Conn) :
  is_done h s -> opDone h s = (Ret tt, s).
Proof.
  intros (x & E & Hd); unfold opDone; unfold bind at 1, gets at 1.
  rewrite E, Hd; reflexivity.
Qed.

Lemma opDone_sets_done (h : nat) (c : ServerCall) (s : Conn) :
  nth_error (srvCalls s) h = Some c -> is_done h (final (opDone h s)).
Proof.
  intros E; unfold opDone, is_done.
  destruct s as [op rn tm io oo pd lt cl sc rs ef]; conn_norm_in E; m_norm.
  rewrite E; destruct (sc_done c) eqn:Hd; m_norm; [eauto|].
  destruct (jsval_nat_eqb (Table.get io (sc_id c)) h); m_norm;
    rewrite nth_error_list_set, Nat.eqb_refl, E; eauto.
Qed.

Lemma done_stays (c : Call) (h : nat) (s : Conn) :
  is_done h s -> is_done h (run c s).
Proof.
  intros (x & E & Hd); unfold is_done.
  destruct (leaves_calls c) eqn:Hc;
    [exists x; rewrite srvCalls_kept by assumption; auto|].
  destruct c; try discriminate.
  - (* handleCallRequest appends an activation *)
    exists x; split; [|exact Hd].
    cbn [run]; unfold handleCallRequest.
    destruct s as [op rn tm io oo pd lt cl sc rs ef]; conn_norm_in E; m_norm.
    rewrite nth_error_app1; [exact E|].
    apply nth_error_Some; congruence.
  - (* buildResponse updates the res field of one activation *)
    cbn [run]; unfold buildResponse.
    destruct s as [op rn tm io oo pd lt cl sc rs ef]; conn_norm_in E; m_norm.
    destruct (nth_error sc h0) as [c0|] eqn:E0; m_norm; [|eauto].
    destruct (res_started rs (sop_res (sc_op c0))); m_norm; [eauto|].
    rewrite nth_error_list_set, E0.
    destruct (Nat.eqb_spec h0 h) as [->|_]; [|eauto].
    eexists; split; [reflexivity|]; cbn [sc_done]; congruence.
  - (* opDone sets the done flag of one activation *)
    cbn [run]; unfold opDone.
    destruct s as [op rn tm io oo pd lt cl sc rs ef]; conn_norm_in E; m_norm.
    destruct (nth_error sc h0) as [c0|] eqn:E0; m_norm; [|eauto].
    destruct (sc_done c0); m_norm; [eauto|].
    destruct (jsval_nat_eqb (Table.get io (sc_id c0)) h0); m_norm;
      rewrite nth_error_list_set, E0;
      (destruct (Nat.eqb_spec h0 h) as [->|_]; [|eauto]);
      eexists; split; reflexivity.
Qed.

Lemma done_stays_runs (cs : list Call) (h : nat) (s : Conn) :
  is_done h s -> is_done h (runs cs s).
Proof.
  revert s; induction cs as [|c cs IH]; intros s Hd; [exact Hd|].
  cbn [runs fold_left]; apply IH, done_stays; exact Hd.
Qed.

(** C6. For the incoming operation of an activation [h] of
    [handleCallRequest]: a call of [opDone] either removes the operation's
    entry and lowers [pending.in] by one, which happens only when [done] was
    false and the table mapped the operation's ID to this very operation, or
    leaves the table and both counters as they were.  When the table does
    not map the ID to this operation, nothing is removed or counted and the
    only effect is the 'mismatched opDone callback' warning (none if [done]
    was set).  Once [opDone] has been called, every later call of it, after
    any calls on the connection, changes nothing at all. *)
Theorem opDone_at_most_once (s : Conn) (h : nat) (c : ServerCall) :
  nth_error (srvCalls s) h = Some c ->
  (forall cs,
      opDone h (runs cs (final (opDone h s))) = (Ret tt, runs cs (final (opDone h s))))
  /\ ((sc_done c = false
       /\ Table.get (inOps s) (sc_id c) = obj h
       /\ inOps (final (opDone h s)) = Table.delete (sc_id c) (inOps s)
       /\ pending (final (opDone h s)) =
          mkPending (p_in (pending s) - 1) (p_out (pending s))
       /\ effects (final (opDone h s)) = effects s)
      \/ (inOps (final (opDone h s)) = inOps s
          /\ pending (final (opDone h s)) = pending s))
  /\ (Table.get (inOps s) (sc_id c) <> obj h ->
      inOps (final (opDone h s)) = inOps s
      /\ pending (final (opDone h s)) = pending s
      /\ ((sc_done c = true /\ effects (final (opDone h s)) = effects s)
          \/ (sc_done c = false
              /\ effects (final (opDone h s)) =
                 effects s ++ [Log Warn "mismatched opDone callback"
                                   (MetaMismatch (sc_id c))]))).
Proof.
  intros E; split; [|split].
  - intros cs; apply opDone_done, done_stays_runs, (opDone_sets_done h c s E).
  - unfold opDone.
    destruct s as [op rn tm io oo [pi po] lt cl sc rs ef]; conn_norm_in E; m_norm.
    rewrite E; destruct (sc_done c) eqn:Hd; m_norm; [right; auto|].
    destruct (jsval_nat_eqb (Table.get io (sc_id c)) h) eqn:Hm; m_norm.
    + left; apply jsval_nat_eqb_true in Hm; auto.
    + right; auto.
  - intros Hne; unfold opDone.
    destruct s as [op rn tm io oo [pi po] lt cl sc rs ef]; conn_norm_in E;
      conn_norm_in Hne; m_norm.
    rewrite E; destruct (sc_done c) eqn:Hd; m_norm; [auto|].
    destruct (jsval_nat_eqb (Table.get io (sc_id c)) h) eqn:Hm; m_norm.
    + apply jsval_nat_eqb_true in Hm; contradiction.
    + auto.
Qed.

(** [conn3] after a teardown: the incoming operation 9 is gone from the
    table when its response finishes. *)
Lemma opDone_at_most_once_witness :
  opDone 0 (final (opDone 0 conn3_closed)) = (Ret tt, final (opDone 0 conn3_closed))
  /\ inOps (final (opDone 0 conn3_closed)) = inOps conn3_closed
  /\ pending (final (opDone 0 conn3_closed)) = mkPending 0 0
  /\ log_levels (effects (final (opDone 0 conn3_closed))) = [Info; Warn].
Proof.
  destruct (opDone_at_most_once conn3_closed 0
              (mkServerCall 9%N (mkServerOp 7 (mkInReq 9%N 100 None) None) false)
              eq_refl) as (H1 & _ & H3).
  split; [exact (H1 [])|].
  destruct H3 as (H3 & H4 & _); [discriminate|].
  split; [exact H3|]. split; [exact H4|]. reflexivity.
Defined.

(** ** Building the response of an incoming operation *)

(** C7 (as the code has it).  [buildResponse] raises
    Response-Already-Started, and changes nothing, exactly when the
    operation has a response whose state is no longer Initial.  When the
    operation has no response, or one that is still in its Initial state, the
    call builds a new response object, in state Initial, and makes it the
    operation's response. *)
Theorem buildResponse_guard (s : Conn) (h : nat) (c : ServerCall) :
  nth_error (srvCalls s) h = Some c ->
  (forall r x,
      sop_res (sc_op c) = Some r -> nth_error (responses s) r = Some x ->
      res_state x <> Initial ->
      buildResponse h s = (Throw (ResponseAlreadyStarted (res_state x)), s))
  /\ ((sop_res (sc_op c) = None
       \/ exists r x, sop_res (sc_op c) = Some r
                      /\ nth_error (responses s) r = Some x
                      /\ res_state x = Initial) ->
      exists s',
        buildResponse h s = (Ret (Some (length (responses s))), s')
        /\ responses s' = responses s ++ [mkResponse Initial h]
        /\ nth_error (srvCalls s') h =
           Some (mkServerCall (sc_id c)
                   (mkServerOp (sop_start (sc_op c)) (sop_req (sc_op c))
                               (Some (length (responses s))))
                   (sc_done c))
        /\ inOps s' = inOps s /\ pending s' = pending s
        /\ effects s' = effects s).
Proof.
  intros E; split.
  - intros r x Hr Hx Hst; unfold buildResponse.
    unfold bind at 1, gets at 1; rewrite E.
    unfold bind at 1, gets at 1; unfold res_started; rewrite Hr, Hx.
    destruct (res_state x) as [|n]; [contradiction|reflexivity].
  - intros Hfree.
    assert (res_started (responses s) (sop_res (sc_op c)) = None) as Hn.
    { destruct Hfree as [->|(r & x & -> & Hx & Hst)]; [reflexivity|].
      unfold res_started; rewrite Hx, Hst; reflexivity. }
    unfold buildResponse.
    destruct s as [op rn tm io oo pd lt cl sc rs ef]; conn_norm_in E; conn_norm_in Hn.
    m_norm; rewrite E, Hn; m_norm.
    eexists; split; [reflexivity|]; conn_norm.
    rewrite nth_error_list_set, Nat.eqb_refl, E; auto 10.
Qed.

Lemma buildResponse_guard_witness :
  buildResponse 0 conn3_streaming =
  (Throw (ResponseAlreadyStarted (Later 1)), conn3_streaming).
Proof.
  destruct (buildResponse_guard conn3_streaming 0
              (mkServerCall 9%N (mkServerOp 7 (mkInReq 9%N 100 None) (Some 0%nat)) false)
              eq_refl) as [H _].
  apply (H 0%nat (mkResponse (Later 1) 0)); [reflexivity|reflexivity|discriminate].
Defined.

(** C7 fails while the first response is still in its Initial state: a
    second call of [buildResponse] returns a second response object, and
    two response objects of the one incoming operation exist. *)
Lemma buildResponse_twice_counterexample :
  let s1 := final (buildResponse 0 conn3) in
  let s2 := final (buildResponse 0 s1) in
  reachable conn3
  /\ buildResponse 0 conn3 = (Ret (Some 0%nat), s1)
  /\ buildResponse 0 s1 = (Ret (Some 1%nat), s2)
  /\ responses s2 = [mkResponse Initial 0; mkResponse Initial 0].
Proof.
  cbv zeta; split; [exact reachable_conn3|repeat split].
Qed.

(** ** A sweep over a table with a removed entry *)

(** C8 fails for the outgoing sweep.  On any connection whose outgoing
    table holds [undefined] under its first key, [checkOutOpsForTimeout]
    throws a TypeError at that entry, before its test for an undefined
    operation, and the scan stops there: the state is as it was, whatever
    entries follow. *)
Theorem checkOutOpsForTimeout_throws_on_undefined
  (now : Z) (k : Id) (rest : table ClientOp) (s : Conn) :
  checkOutOpsForTimeout now (with_outOps ((k, undefined) :: rest) s) =
  (Throw (NativeTypeError "Cannot read property 'timedOut' of undefined"),
   with_outOps ((k, undefined) :: rest) s).
Proof.
  unfold checkOutOpsForTimeout; unfold bind at 1, gets at 1.
  destruct s; conn_norm; cbn [Table.keys map fst forEach].
  unfold bind at 1, checkOutOp; m_norm.
  cbn [Table.get]; rewrite N.eqb_refl; reflexivity.
Qed.

(** An expired operation behind the removed entry is left in place: no
    Timeout error reaches its request. *)
Lemma checkOutOpsForTimeout_leaves_expired :
  let op := mkClientOp (mkOutReq 2%N 50 None) 0 false in
  let s := with_outOps [(1%N, undefined); (2%N, obj op)] conn0 in
  final (checkOutOpsForTimeout 60 s) = s
  /\ expired_out 60 (2%N, obj op) = true.
Proof.
  cbv zeta; split; reflexivity.
Qed.

(** The incoming sweep does skip such entries: it returns normally on every
    table without repeated keys, passing over [undefined] slots. *)
Lemma checkInOpsForTimeout_skips_undefined (now : Z) (s : Conn) :
  NoDup (Table.keys (inOps s)) ->
  checkInOpsForTimeout now s = (Ret tt, sweptIn now [] (inOps s) s)
  /\ forall k, In (k, undefined) (inOps s) ->
               In (k, undefined) (inOps (sweptIn now [] (inOps s) s)).
Proof.
  intros Hnd; split.
  - unfold checkInOpsForTimeout; unfold bind at 1, gets at 1.
    apply checkIn_loop; [reflexivity|exact Hnd].
  - intros k Hin; unfold sweptIn; destruct s; conn_norm; conn_norm_in Hin.
    cbn [app]; apply filter_In; split; [exact Hin|reflexivity].
Qed.

(** ** The sweep delay *)




(** ** The time-to-live of an outgoing request *)

(** C10. [request] always returns; the operation it registers under the
    request's ID holds the returned request, the clock reading and a clear
    [timedOut] flag, and the request's [ttl] is [options.timeout] when that
    is a number other than 0, and the default 2000 when it is 0, when it is
    absent, and when [request] is called without options. *)
Theorem request_ttl (now : Z) (id : Id) (o : option AdmOptions) (s : Conn) :
  exists req s',
    request now id o s = (Ret req, s')
    /\ oreq_id req = id
    /\ Table.get (outOps s') id = obj (mkClientOp req now false)
    /\ (forall opts t, o = Some opts -> opt_timeout opts = Some t -> t <> 0 ->
         oreq_ttl req = t)
    /\ (forall opts, o = Some opts -> opt_timeout opts = Some 0 ->
         oreq_ttl req = 2000)
    /\ (forall opts, o = Some opts -> opt_timeout opts = None ->
         oreq_ttl req = 2000)
    /\ (o = None -> oreq_ttl req = 2000).
Proof.
  unfold request, buildOutgoingRequest; cbn [oreq_id].
  destruct s as [op rn tm io oo [pi po] lt cl sc rs ef]; m_norm.
  do 2 eexists; split; [reflexivity|]; conn_norm.
  split; [reflexivity|].
  split; [apply TableFacts.get_set|].
  cbn [oreq_ttl]; unfold timeout_or_default, DEFAULT_OUTGOING_REQ_TIMEOUT.
  repeat split.
  - intros opts t -> -> Ht; apply Z.eqb_neq in Ht; rewrite Ht; reflexivity.
  - intros opts -> ->; reflexivity.
  - intros opts -> ->; reflexivity.
  - intros ->; reflexivity.
Qed.

Lemma request_ttl_witness :
  exists req s',
    request 0 4%N (Some (mkAdmOptions (Some 0) None)) conn0 = (Ret req, s')
    /\ Table.get (outOps s') 4%N = obj (mkClientOp req 0 false)
    /\ oreq_ttl req = 2000.
Proof.
  destruct (request_ttl 0 4%N (Some (mkAdmOptions (Some 0) None)) conn0)
    as (req & s' & E & _ & Hget & _ & H0 & _).
  exists req, s'; split; [exact E|]; split; [exact Hget|].
  apply (H0 (mkAdmOptions (Some 0) None)); reflexivity.
Defined.

(** * Further properties of the connection *)

(** ** Tables stay in key order *)

Module TableOrder.
Section Facts.
Context {A : Type}.
Implicit Types (t : table A) (k : Id) (v : jsval A).

Lemma keys_set_in t k v x :
  In x (Table.keys (Table.set k v t)) -> x = k \/ In x (Table.keys t).
Proof.
  induction t as [|[k' v'] t IH]; cbn [Table.set Table.keys map fst In].
  - intuition.
  - destruct (N.eqb_spec k k') as [->|Hne]; cbn [map fst In]; [intuition|].
    destruct (N.ltb k k'); cbn [map fst In]; [intuition|].
    intros [E|Hin]; [auto|]. destruct (IH Hin); auto.
Qed.

Lemma ascending_set t k v : ascending t -> ascending (Table.set k v t).
Proof.
  unfold ascending; induction t as [|[k' v'] t IH];
    cbn [Table.set Table.keys map fst]; intros Hs.
  - repeat constructor.
  - inversion Hs as [|? ? Hs' Hall]; subst.
    destruct (N.eqb_spec k k') as [->|Hne]; [exact Hs|].
    destruct (N.ltb_spec k k') as [Hlt|Hge]; cbn [map fst].
    + constructor; [exact Hs|].
      constructor; [exact Hlt|].
      eapply Forall_impl; [|exact Hall]; cbn; intros; lia.
    + constructor; [apply IH; exact Hs'|].
      apply Forall_forall; intros x Hx.
      destruct (keys_set_in _ _ _ _ Hx) as [->|Hin]; [lia|].
      rewrite Forall_forall in Hall; apply Hall; exact Hin.
Qed.

Lemma keys_delete_in t k x :
  In x (Table.keys (Table.delete k t)) -> In x (Table.keys t).
Proof.
  induction t as [|[k' v'] t IH]; cbn [Table.delete Table.keys map fst In]; [tauto|].
  destruct (N.eqb k k'); cbn [map fst In]; intuition.
Qed.

Lemma ascending_delete t k : ascending t -> ascending (Table.delete k t).
Proof.
  unfold ascending; induction t as [|[k' v'] t IH];
    cbn [Table.delete Table.keys map fst]; intros Hs; [constructor|].
  inversion Hs as [|? ? Hs' Hall]; subst.
  destruct (N.eqb k k'); [exact Hs'|]; cbn [map fst].
  constructor; [apply IH; exact Hs'|].
  apply Forall_forall; intros x Hx; apply keys_delete_in in Hx.
  rewrite Forall_forall in Hall; apply Hall; exact Hx.
Qed.

Lemma ascending_NoDup t : ascending t -> NoDup (Table.keys t).
Proof.
  unfold ascending; induction 1 as [|x l Hs IH Hall]; constructor; [|exact IH].
  intros Hin; rewrite Forall_forall in Hall; specialize (Hall _ Hin); lia.
Qed.

(** Overwriting a property keeps the keys as they are. *)
Lemma keys_set_present t k v :
  ascending t -> In k (Table.keys t) -> Table.keys (Table.set k v t) = Table.keys t.
Proof.
  unfold ascending; induction t as [|[k' v'] t IH];
    cbn [Table.set Table.keys map fst In]; intros Hs Hk; [tauto|].
  inversion Hs as [|? ? Hs' Hall]; subst.
  destruct (N.eqb_spec k k') as [->|Hne]; [reflexivity|].
  destruct Hk as [E|Hk]; [congruence|].
  destruct (N.ltb_spec k k') as [Hlt|Hge]; cbn [map fst].
  - rewrite Forall_forall in Hall; specialize (Hall _ Hk); lia.
  - f_equal; apply IH; assumption.
Qed.
End Facts.
End TableOrder.

Lemma get_delete_same {A} (t : table A) (k : Id) :
  NoDup (Table.keys t) -> Table.get (Table.delete k t) k = undefined.
Proof.
  induction t as [|[k' v'] t IH]; cbn [Table.delete Table.keys map fst];
    intros Hnd; [reflexivity|].
  inversion Hnd as [|? ? Hk Hnd']; subst.
  destruct (N.eqb_spec k k') as [->|Hne].
  - apply TableFacts.get_notin; assumption.
  - cbn [Table.get]; destruct (N.eqb_spec k k'); [contradiction|auto].
Qed.

Lemma delete_set_fresh {A} (t : table A) (k : Id) (v : jsval A) :
  ~ In k (Table.keys t) -> Table.delete k (Table.set k v t) = t.
Proof.
  induction t as [|[k' v'] t IH]; cbn [Table.set Table.delete Table.keys map fst In].
  - rewrite N.eqb_refl; reflexivity.
  - intros Hk; destruct (N.eqb_spec k k') as [->|Hne]; [tauto|].
    destruct (N.ltb k k'); cbn [Table.delete].
    + rewrite N.eqb_refl; reflexivity.
    + destruct (N.eqb_spec k k'); [contradiction|].
      rewrite IH by tauto; reflexivity.
Qed.

Lemma has_key_true {A} (t : table A) (k : Id) :
  has_key k t = true -> In k (Table.keys t).
Proof.
  unfold has_key; intros H; apply existsb_exists in H.
  destruct H as (x & Hin & E); apply N.eqb_eq in E; subst; exact Hin.
Qed.

(** Every call keeps both tables in key order. *)
Lemma run_keeps_order (c : Call) (s : Conn) :
  ascending (outOps s) /\ ascending (inOps s) ->
  ascending (outOps (run c s)) /\ ascending (inOps (run c s)).
Proof.
  revert s; destruct c; cbn [run];
    match goal with |- forall s, _ -> ascending (outOps (final (?m s))) /\ _ =>
      change (keeps (fun s => ascending (outOps s) /\ ascending (inOps s)) m) end;
    unfold_methods; keeps_walk;
    apply keeps_modify; intros st [H1 H2]; destruct st; conn_norm;
    conn_norm_in H1; conn_norm_in H2; split;
    auto using TableOrder.ascending_set, TableOrder.ascending_delete;
    constructor.
Qed.

Lemma reachable_ascending (s : Conn) :
  reachable s -> ascending (outOps s) /\ ascending (inOps s).
Proof.
  induction 1 as [o r|s c _ IH _]; [|apply run_keeps_order; exact IH].
  split; constructor.
Qed.

(** ** Registering and resolving operations *)

(** X1. [popOutOp] resolves an outgoing operation at most once.  When the
    table has no live operation under [id] the call returns [undefined]
    and changes nothing; when it has one, the call returns it, removes the
    entry, takes one entry off the table and one off [pending.out], and
    changes nothing else.  A second [popOutOp] of the same ID finds
    nothing and changes nothing. *)
Theorem popOutOp_resolves_once (id : Id) (s : Conn) :
  NoDup (Table.keys (outOps s)) ->
  (Table.get (outOps s) id = undefined -> popOutOp id s = (Ret undefined, s))
  /\ (forall op,
        Table.get (outOps s) id = obj op ->
        popOutOp id s =
        (Ret (obj op),
         with_pending (mkPending (p_in (pending s)) (p_out (pending s) - 1))
           (with_outOps (Table.delete id (outOps s)) s))
        /\ S (length (Table.delete id (outOps s))) = length (outOps s))
  /\ popOutOp id (final (popOutOp id s)) = (Ret undefined, final (popOutOp id s)).
Proof.
  intros Hnd.
  assert (forall s0, Table.get (outOps s0) id = undefined ->
                     popOutOp id s0 = (Ret undefined, s0)) as Hmiss.
  { intros s0 E; unfold popOutOp; unfold bind at 1, gets at 1; rewrite E; reflexivity. }
  split; [apply Hmiss|split].
  - intros op E; split.
    + unfold popOutOp; unfold bind at 1, gets at 1; rewrite E.
      destruct s as [o rn tm io oo [pi po] lt cl sc rs ef]; reflexivity.
    + apply TableFacts.length_delete.
      eapply TableFacts.in_keys, TableFacts.get_obj_in; exact E.
  - apply Hmiss; unfold popOutOp; unfold bind at 1, gets at 1.
    destruct (Table.get (outOps s) id) as [|op] eqn:E; [exact E|].
    destruct s as [o rn tm io oo [pi po] lt cl sc rs ef]; m_norm; conn_norm_in Hnd.
    apply get_delete_same; exact Hnd.
Qed.

Lemma popOutOp_resolves_once_witness :
  popOutOp 1%N (final (popOutOp 1%N conn3)) = (Ret undefined, final (popOutOp 1%N conn3)).
Proof.
  apply (popOutOp_resolves_once 1%N conn3).
  apply TableOrder.ascending_NoDup, (reachable_ascending conn3 reachable_conn3).
Defined.

(** X2. Registering an outgoing request under an ID that is not in
    flight and resolving it at once is a round trip: [popOutOp] returns the
    operation [request] built (the returned request, the clock reading, a
    clear flag) and the connection is back in the state before [request]. *)
Theorem request_popOutOp_round_trip
  (now : Z) (id : Id) (o : option AdmOptions) (s : Conn) :
  has_key id (outOps s) = false ->
  exists req s',
    request now id o s = (Ret req, s')
    /\ popOutOp id s' = (Ret (obj (mkClientOp req now false)), s).
Proof.
  intros Hfresh; apply TableFacts.has_key_false in Hfresh.
  unfold request, buildOutgoingRequest; cbn [oreq_id].
  destruct s as [op rn tm io oo [pi po] lt cl sc rs ef]; conn_norm_in Hfresh; m_norm.
  do 2 eexists; split; [reflexivity|].
  unfold popOutOp; m_norm; rewrite TableFacts.get_set; m_norm.
  rewrite delete_set_fresh by assumption.
  do 3 f_equal; lia.
Qed.

Lemma request_popOutOp_round_trip_witness :
  exists req s',
    request 10 3%N None conn3 = (Ret req, s')
    /\ popOutOp 3%N s' = (Ret (obj (mkClientOp req 10 false)), conn3).
Proof.
  apply (request_popOutOp_round_trip 10 3%N None conn3); reflexivity.
Defined.

(** X3. [request] does not guard against an ID that is in flight: on a
    reachable connection it then overwrites the entry under that ID (the
    keys of the table stay as they are, the operation registered before is
    dropped without any notification) and still raises [pending.out], which
    from then on exceeds the number of entries of the table by one. *)
Theorem request_on_id_in_flight
  (now : Z) (id : Id) (o : option AdmOptions) (s : Conn) :
  reachable s ->
  has_key id (outOps s) = true ->
  exists req s',
    request now id o s = (Ret req, s')
    /\ Table.keys (outOps s') = Table.keys (outOps s)
    /\ Table.get (outOps s') id = obj (mkClientOp req now false)
    /\ p_out (pending s') = Table.size (outOps s') + 1
    /\ effects s' = effects s.
Proof.
  intros Hs Hkey; apply has_key_true in Hkey.
  destruct (reachable_ascending s Hs) as [Hasc _].
  destruct (reachable_wf s Hs) as [_ _ _ _ Hp _].
  unfold request, buildOutgoingRequest; cbn [oreq_id].
  destruct s as [op rn tm io oo [pi po] lt cl sc rs ef];
    conn_norm_in Hkey; conn_norm_in Hasc; conn_norm_in Hp; m_norm.
  do 2 eexists; split; [reflexivity|]; conn_norm.
  pose proof (TableOrder.keys_set_present oo id
                (obj (mkClientOp
                        (mkOutReq id
                           (timeout_or_default
                              (opt_timeout match o with
                                           | Some o0 => o0
                                           | None => mkAdmOptions None None
                                           end))
                           (opt_checksum match o with
                                         | Some o0 => o0
                                         | None => mkAdmOptions None None
                                         end)) now false)) Hasc Hkey) as Hkeys.
  split; [exact Hkeys|].
  split; [apply TableFacts.get_set|].
  split; [|reflexivity].
  unfold Table.size in *; subst po.
  apply (f_equal (@length Id)) in Hkeys; unfold Table.keys in Hkeys.
  rewrite !length_map in Hkeys; rewrite Hkeys; reflexivity.
Qed.

Lemma request_on_id_in_flight_witness :
  exists req s',
    request 10 1%N None conn3 = (Ret req, s')
    /\ Table.keys (outOps s') = Table.keys (outOps conn3)
    /\ Table.get (outOps s') 1%N = obj (mkClientOp req 10 false)
    /\ p_out (pending s') = Table.size (outOps s') + 1
    /\ effects s' = effects conn3.
Proof.
  apply (request_on_id_in_flight 10 1%N None conn3 reachable_conn3); reflexivity.
Defined.

(** X4. Registering an incoming request under an ID that is not in flight
    and finalizing it is a round trip on the table and the counters:
    [handleCallRequest] maps the ID to the new operation and raises
    [pending.in], subscribing the error listener before it schedules the
    handler, which it does not run; [opDone] of that activation then
    restores the incoming table and both counters and emits nothing. *)
Theorem handleCallRequest_opDone_round_trip (now : Z) (req : InReq) (s : Conn) :
  has_key (ireq_id req) (inOps s) = false ->
  exists s1 s2,
    handleCallRequest now req s = (Ret (length (srvCalls s)), s1)
    /\ Table.get (inOps s1) (ireq_id req) = obj (length (srvCalls s))
    /\ p_in (pending s1) = p_in (pending s) + 1
    /\ effects s1 = effects s ++ [ReqOnError (length (srvCalls s));
                                  NextTick (length (srvCalls s))]
    /\ opDone (length (srvCalls s)) s1 = (Ret tt, s2)
    /\ inOps s2 = inOps s
    /\ pending s2 = pending s
    /\ effects s2 = effects s1.
Proof.
  intros Hfresh; apply TableFacts.has_key_false in Hfresh.
  unfold handleCallRequest; cbn [ireq_id].
  destruct s as [op rn tm io oo [pi po] lt cl sc rs ef]; conn_norm_in Hfresh; m_norm.
  do 2 eexists; split; [reflexivity|]; conn_norm.
  split; [apply TableFacts.get_set|].
  split; [reflexivity|].
  split; [rewrite <- app_assoc; reflexivity|].
  unfold opDone; m_norm.
  rewrite nth_error_app2, Nat.sub_diag by lia; cbn [nth_error sc_done sc_id].
  m_norm; rewrite TableFacts.get_set; cbn [jsval_nat_eqb]; rewrite Nat.eqb_refl.
  m_norm; split; [reflexivity|]; conn_norm.
  rewrite delete_set_fresh by assumption.
  split; [reflexivity|]. split; [f_equal; lia|reflexivity].
Qed.

Lemma handleCallRequest_opDone_round_trip_witness :
  exists s1 s2,
    handleCallRequest 20 (mkInReq 4%N 100 None) conn3
    = (Ret (length (srvCalls conn3)), s1)
    /\ Table.get (inOps s1) 4%N = obj (length (srvCalls conn3))
    /\ p_in (pending s1) = p_in (pending conn3) + 1
    /\ effects s1 = effects conn3 ++ [ReqOnError (length (srvCalls conn3));
                                      NextTick (length (srvCalls conn3))]
    /\ opDone (length (srvCalls conn3)) s1 = (Ret tt, s2)
    /\ inOps s2 = inOps conn3
    /\ pending s2 = pending conn3
    /\ effects s2 = effects s1.
Proof.
  apply (handleCallRequest_opDone_round_trip 20 (mkInReq 4%N 100 None) conn3);
    reflexivity.
Defined.

(** ** The timer, the closing flag and the timeout mark *)




Ltac effects_count :=
  unfold conn_errors, log_levels, req_errors, timed_out_count, armed;
  rewrite ?flat_map_app, ?filter_app, ?length_app; cbn [flat_map filter length app];
  rewrite ?app_nil_r, ?Nat.add_0_r.

Lemma closing_call_publishes_nothing (c : Call) (s : Conn) :
  closing s = true ->
  closing (run c s) = true
  /\ conn_errors (effects (run c s)) = conn_errors (effects s)
  /\ timed_out_count (effects (run c s)) = timed_out_count (effects s)
  /\ req_errors (effects (run c s)) = req_errors (effects s)
  /\ armed (effects (run c s)) = armed (effects s).
Proof.
  intros Hcl; split; [apply closing_stays; exact Hcl|].
  destruct c; cbn [run].
  - unfold request; destruct s; m_norm; auto.
  - unfold handleCallRequest; destruct s; m_norm.
    rewrite <- app_assoc; effects_count; auto.
  - unfold popOutOp; destruct s; m_norm.
    match goal with |- context [Table.get ?t ?k] => destruct (Table.get t k) end;
      m_norm; auto.
  - rewrite onTimeoutCheck_closing by assumption; auto.
  - unfold buildResponse; destruct s; m_norm.
    match goal with |- context [nth_error ?l ?n] => destruct (nth_error l n) end;
      m_norm; auto.
    match goal with |- context [res_started ?l ?n] => destruct (res_started l n) end;
      m_norm; auto.
  - unfold setResState; destruct s; m_norm.
    match goal with |- context [nth_error ?l ?n] => destruct (nth_error l n) end;
      m_norm; auto.
  - unfold opDone; destruct s; m_norm.
    match goal with |- context [nth_error ?l ?n] =>
      destruct (nth_error l n) as [c|] end; m_norm; auto.
    destruct (sc_done c); m_norm; auto.
    match goal with |- context [jsval_nat_eqb ?a ?b] => destruct (jsval_nat_eqb a b) end;
      m_norm; auto.
    effects_count; auto.
  - rewrite resetAll_closing by assumption.
    destruct s as [o rn [d|] io oo pd lt cl sc rs ef]; m_norm; cbn [clear_effects];
      effects_count; auto.
  - unfold close; rewrite resetAll_closing by assumption.
    destruct s as [o rn [d|] io oo pd lt cl sc rs ef]; m_norm; cbn [clear_effects];
      effects_count; auto.
Qed.

(** X6. The [closing] flag never reverts, and a closing connection is
    silent: whatever calls follow (requests, incoming requests, responses,
    sweeps, further teardowns), it emits no 'error' and no 'timedOut'
    notification, delivers no error to any request and arms no timer. *)
Theorem closing_connection_is_silent (cs : list Call) (s : Conn) :
  closing s = true ->
  closing (runs cs s) = true
  /\ conn_errors (effects (runs cs s)) = conn_errors (effects s)
  /\ timed_out_count (effects (runs cs s)) = timed_out_count (effects s)
  /\ req_errors (effects (runs cs s)) = req_errors (effects s)
  /\ armed (effects (runs cs s)) = armed (effects s).
Proof.
  revert s; induction cs as [|c cs IH]; intros s Hcl; [auto|].
  cbn [runs fold_left].
  destruct (closing_call_publishes_nothing c s Hcl) as (H0 & H1 & H2 & H3 & H4).
  destruct (IH (run c s) H0) as (G0 & G1 & G2 & G3 & G4).
  unfold runs in *; repeat split; congruence.
Qed.

Lemma closing_connection_is_silent_witness :
  let cs := [CallRequest 30 5%N None; CallOnTimeoutCheck 5000 (1 # 2);
             CallResetAll None; CallOpDone 0] in
  closing (runs cs conn3_closed) = true
  /\ conn_errors (effects (runs cs conn3_closed)) = conn_errors (effects conn3_closed)
  /\ timed_out_count (effects (runs cs conn3_closed))
     = timed_out_count (effects conn3_closed)
  /\ req_errors (effects (runs cs conn3_closed)) = req_errors (effects conn3_closed)
  /\ armed (effects (runs cs conn3_closed)) = armed (effects conn3_closed).
Proof.
  apply (closing_connection_is_silent
           [CallRequest 30 5%N None; CallOnTimeoutCheck 5000 (1 # 2);
            CallResetAll None; CallOpDone 0] conn3_closed).
  reflexivity.
Defined.

Lemma quiet_keeps_armed (c : Call) (n : nat) (s : Conn) :
  quiet c = true -> armed (effects s) = n -> armed (effects (run c s)) = n.
Proof.
  intros Hq; revert s; destruct c; try discriminate; cbn [run];
    match goal with |- forall s, _ -> armed (effects (final (?m s))) = n =>
      change (keeps (fun s => armed (effects s) = n) m) end;
    unfold_methods; keeps_walk;
    apply keeps_modify; intros st H; destruct st; conn_norm; conn_norm_in H;
    effects_count; exact H.
Qed.

Lemma marked_call (c : Call) (s : Conn) :
  lastTimeoutTime s <> 0 ->
  lastTimeoutTime (run c s) = lastTimeoutTime s
  /\ armed (effects (run c s)) = armed (effects s).
Proof.
  intros Hm; destruct (quiet c) eqn:Hq.
  - split; [apply quiet_keeps_lastTimeoutTime; auto|].
    apply quiet_keeps_armed; auto.
  - destruct c; try discriminate; cbn [run].
    + destruct (closing s) eqn:Hcl.
      * rewrite onTimeoutCheck_closing by assumption; auto.
      * rewrite onTimeoutCheck_escalates by assumption.
        destruct s; m_norm; split; [reflexivity|effects_count; reflexivity].
    + assert (keeps (fun s0 => lastTimeoutTime s0 = lastTimeoutTime s
                               /\ armed (effects s0) = armed (effects s))
                (resetAll err)) as Hk.
      { unfold_methods; keeps_walk;
          apply keeps_modify; intros st [H1 H2]; destruct st; conn_norm;
          conn_norm_in H1; conn_norm_in H2;
          (split; [exact H1|effects_count; exact H2]). }
      apply Hk; auto.
    + assert (keeps (fun s0 => lastTimeoutTime s0 = lastTimeoutTime s
                               /\ armed (effects s0) = armed (effects s))
                close) as Hk.
      { unfold_methods; keeps_walk;
          apply keeps_modify; intros st [H1 H2]; destruct st; conn_norm;
          conn_norm_in H1; conn_norm_in H2;
          (split; [exact H1|effects_count; exact H2]). }
      apply Hk; auto.
Qed.

(** X7. The timeout mark is permanent and stops the sweeper for good: once
    [lastTimeoutTime] is not 0, no call changes it (a teardown does not
    clear it either) and no call arms a timer again. *)
Theorem timeout_mark_is_permanent (cs : list Call) (s : Conn) :
  lastTimeoutTime s <> 0 ->
  lastTimeoutTime (runs cs s) = lastTimeoutTime s
  /\ armed (effects (runs cs s)) = armed (effects s).
Proof.
  revert s; induction cs as [|c cs IH]; intros s Hm; [auto|].
  cbn [runs fold_left].
  destruct (marked_call c s Hm) as [H1 H2].
  destruct (IH (run c s)) as [G1 G2]; [congruence|].
  unfold runs in *; split; congruence.
Qed.

(** [conn3] after the sweep at time 60 that times out operation 1. *)
Lemma timeout_mark_is_permanent_witness :
  let s := run (CallOnTimeoutCheck 60 (1 # 2)) conn3 in
  let cs := [CallOnTimeoutCheck 120 (1 # 2); CallRequest 130 7%N None;
             CallOnTimeoutCheck 9000 (1 # 2)] in
  lastTimeoutTime (runs cs s) = 60 /\ armed (effects (runs cs s)) = 2%nat.
Proof.
  cbv zeta.
  destruct (timeout_mark_is_permanent
              [CallOnTimeoutCheck 120 (1 # 2); CallRequest 130 7%N None;
               CallOnTimeoutCheck 9000 (1 # 2)]
              (run (CallOnTimeoutCheck 60 (1 # 2)) conn3)) as [H1 H2];
    [discriminate|].
  split; [rewrite H1|rewrite H2]; reflexivity.
Defined.

(** ** Sweeps that find nothing to escalate *)

Lemma filter_none {A} (p : A -> bool) (l : list A) :
  forallb (fun x => negb (p x)) l = true ->
  filter p l = [] /\ filter (fun x => negb (p x)) l = l.
Proof.
  induction l as [|x l IH]; cbn [forallb filter]; [auto|].
  intros E; apply andb_true_iff in E; destruct E as [E1 E2].
  destruct (IH E2) as [-> ->]; rewrite E1.
  apply negb_true_iff in E1; rewrite E1; auto.
Qed.

Lemma timeout_deliveries_none (now : Z) (t : table ClientOp) :
  forallb (fun kv => negb (expired_out now kv)) t = true ->
  timeout_deliveries now t = [].
Proof.
  induction t as [|[k v] t IH]; cbn [forallb]; [reflexivity|].
  intros E; apply andb_true_iff in E; destruct E as [E1 E2].
  unfold timeout_deliveries in *; cbn [flat_map snd].
  apply negb_true_iff in E1; rewrite E1, IH by assumption.
  destruct v; reflexivity.
Qed.

(** X8. Incoming timeouts alone never mark the connection.  When a sweep
    runs on a reachable connection that is not closing and not marked, and
    no outgoing operation has outlived its TTL, the sweep removes the
    expired incoming operations and lowers [pending.in] by their number,
    and that is all: the outgoing table and [pending.out] stay as they
    are, nothing is delivered, logged or emitted, [lastTimeoutTime] stays 0
    and the timer is rearmed. *)
Theorem sweep_without_outgoing_timeout (now : Z) (r : Q) (s : Conn) :
  reachable s ->
  closing s = false ->
  lastTimeoutTime s = 0 ->
  forallb (fun kv => negb (expired_out now kv)) (outOps s) = true ->
  exists s',
    onTimeoutCheck now r s = (Ret tt, s')
    /\ outOps s' = outOps s
    /\ p_out (pending s') = p_out (pending s)
    /\ inOps s' = filter (fun kv => negb (expired_in now (srvCalls s) kv)) (inOps s)
    /\ p_in (pending s') =
       p_in (pending s)
       - Z.of_nat (length (filter (expired_in now (srvCalls s)) (inOps s)))
    /\ lastTimeoutTime s' = 0
    /\ effects s' = effects s ++ [SetTimeout (getTimeoutDelay r s)]
    /\ timer s' = Some (getTimeoutDelay r s).
Proof.
  intros Hs Hcl Hlast Hnone.
  destruct (reachable_wf s Hs) as [H1 H2 H3 _ _ _].
  destruct (filter_none _ _ Hnone) as [Hg Hk].
  pose proof (timeout_deliveries_none _ _ Hnone) as Hd.
  exists (swept now r s); split; [apply onTimeoutCheck_sweeps; assumption|].
  unfold swept, sweptIn, sweptOut, getTimeoutDelay.
  destruct s as [o rn tm io oo [pi po] lt cl sc rs ef]; conn_norm.
  conn_norm_in Hg; conn_norm_in Hk; conn_norm_in Hd; conn_norm_in Hlast.
  rewrite Hg, Hk, Hd; cbn [length app]; rewrite app_nil_r, Z.sub_0_r.
  repeat split; assumption.
Qed.

(** One outgoing request with the default TTL and one incoming request
    with TTL 100, started at 7: at time 200 only the latter has expired. *)
Lemma sweep_without_outgoing_timeout_witness :
  let s := run (CallHandleCallRequest 7 (mkInReq 9%N 100 None))
             (run (CallRequest 5 2%N None) conn0) in
  exists s',
    onTimeoutCheck 200 (1 # 2) s = (Ret tt, s')
    /\ outOps s' = outOps s
    /\ inOps s' = []
    /\ p_in (pending s') = 0
    /\ lastTimeoutTime s' = 0.
Proof.
  cbv zeta.
  destruct (sweep_without_outgoing_timeout 200 (1 # 2)
              (run (CallHandleCallRequest 7 (mkInReq 9%N 100 None))
                 (run (CallRequest 5 2%N None) conn0)))
    as (s' & E & H1 & _ & H3 & H4 & H5 & _).
  - apply (reachable_runs [CallRequest 5 2%N None;
                           CallHandleCallRequest 7 (mkInReq 9%N 100 None)]
             conn0 reachable_conn0); reflexivity.
  - reflexivity.
  - reflexivity.
  - reflexivity.
  - exists s'; split; [exact E|]. split; [exact H1|].
    split; [rewrite H3; reflexivity|]. split; [rewrite H4; reflexivity|exact H5].
Defined.




(** ** Teardown on any state *)

(** X10. Whatever the state of the connection and whether [resetAll]
    returns or throws, after the call the connection is closing and holds no
    timer, [lastTimeoutTime] is as before, and a sweep that still fires
    does nothing. *)
Theorem teardown_stops_sweeper
  (err : option JsError) (now : Z) (r : Q) (s : Conn) :
  closing (final (resetAll err s)) = true
  /\ timer (final (resetAll err s)) = None
  /\ lastTimeoutTime (final (resetAll err s)) = lastTimeoutTime s
  /\ onTimeoutCheck now r (final (resetAll err s)) = (Ret tt, final (resetAll err s)).
Proof.
  destruct (resetAll_post err s) as [Hcl Ht].
  split; [exact Hcl|]. split; [exact Ht|]. split.
  - assert (keeps (fun s0 => lastTimeoutTime s0 = lastTimeoutTime s) (resetAll err))
      as Hk by (unfold_methods; keeps_walk).
    apply Hk; reflexivity.
  - apply onTimeoutCheck_closing; exact Hcl.
Qed.



(** X12. [close] never publishes an 'error' notification and always leaves
    the connection closing, whatever the state it is called on; on a
    connection that is not closing it logs the reset once, at info
    severity. *)
Theorem close_publishes_no_error (s : Conn) :
  closing (final (close s)) = true
  /\ conn_errors (effects (final (close s))) = conn_errors (effects s)
  /\ (closing s = false ->
      log_levels (effects (final (close s))) = log_levels (effects s) ++ [Info]).
Proof.
  unfold close; split; [apply resetAll_post|].
  destruct (closing s) eqn:Hcl.
  - split; [|discriminate].
    rewrite resetAll_closing by assumption.
    destruct s as [o rn [d|] io oo pd lt cl sc rs ef]; m_norm; cbn [clear_effects];
      effects_count; reflexivity.
  - destruct (resetAll_effects (Some (SocketClosedError "local close")) s Hcl)
      as (tail & E & H1 & H2).
    rewrite E; unfold reset_announce; cbn [reset_error isError err_type
      opt_string_eqb String.eqb Ascii.eqb Bool.eqb negb].
    unfold conn_errors, log_levels in *.
    rewrite !flat_map_app, H1, H2.
    destruct (timer s); cbn [clear_effects flat_map app]; rewrite ?app_nil_r; auto.
Qed.

Lemma close_publishes_no_error_witness :
  log_levels (effects (final (close conn3))) = log_levels (effects conn3) ++ [Info].
Proof.
  apply (close_publishes_no_error conn3); reflexivity.
Defined.

(** ** The error listener of an incoming request *)

(** X13. [onReqError] of a live activation never throws and builds at most
    one response.  When the operation has a response, whatever its state,
    the listener changes nothing and addresses the error frame to that
    response; when it has none, the listener builds one (nothing else
    changes: tables, counters and effects stay) and addresses the frame to
    it, and any later error reaches the same response.  The frame is
    'Timeout' with the error's message when the error's type is
    'tchannel.timeout-error', and 'UnexpectedError' with the error's name,
    a colon and the message otherwise. *)
Theorem onReqError_builds_at_most_once
  (h : nat) (c : ServerCall) (err : JsError) (errName message : string) (s : Conn) :
  nth_error (srvCalls s) h = Some c ->
  (forall r, sop_res (sc_op c) = Some r ->
             onReqError h err errName message s =
             (Ret (Some (error_frame err errName message r)), s))
  /\ (sop_res (sc_op c) = None ->
      exists s',
        onReqError h err errName message s =
        (Ret (Some (error_frame err errName message (length (responses s)))), s')
        /\ responses s' = responses s ++ [mkResponse Initial h]
        /\ inOps s' = inOps s /\ outOps s' = outOps s /\ pending s' = pending s
        /\ effects s' = effects s
        /\ forall err2 errName2 message2,
             onReqError h err2 errName2 message2 s' =
             (Ret (Some (error_frame err2 errName2 message2 (length (responses s)))),
              s')).
Proof.
  intros E.
  assert (forall s0 c0 r e n m,
             nth_error (srvCalls s0) h = Some c0 -> sop_res (sc_op c0) = Some r ->
             onReqError h e n m s0 = (Ret (Some (error_frame e n m r)), s0)) as Hhas.
  { intros s0 c0 r e n m E0 Hr; unfold onReqError, error_frame.
    unfold bind at 1, gets at 1; rewrite E0, Hr.
    unfold bind at 1, ret at 1, bind at 1, gets at 1; rewrite E0, Hr.
    destruct (is_timeout_error e); reflexivity. }
  split; [intros r Hr; apply (Hhas s c); assumption|].
  intros Hnone.
  assert (final (buildResponse h s) =
          with_srvCalls
            (list_set h (mkServerCall (sc_id c)
                           (mkServerOp (sop_start (sc_op c)) (sop_req (sc_op c))
                                       (Some (length (responses s))))
                           (sc_done c)) (srvCalls s))
            (with_responses (responses s ++ [mkResponse Initial h]) s)
          /\ exists v, buildResponse h s = (Ret v, final (buildResponse h s)))
    as [Hb (v & Hv)].
  { unfold buildResponse.
    destruct s as [o rn tm io oo pd lt cl sc rs ef]; conn_norm_in E; conn_norm_in Hnone.
    m_norm; rewrite E, Hnone; cbn [res_started]; m_norm; eauto. }
  assert (nth_error (srvCalls (final (buildResponse h s))) h =
          Some (mkServerCall (sc_id c)
                  (mkServerOp (sop_start (sc_op c)) (sop_req (sc_op c))
                              (Some (length (responses s))))
                  (sc_done c))) as E1.
  { rewrite Hb; destruct s; conn_norm; conn_norm_in E.
    rewrite nth_error_list_set, Nat.eqb_refl, E; reflexivity. }
  exists (final (buildResponse h s)); split.
  - unfold onReqError, error_frame.
    unfold bind at 1, gets at 1; rewrite E, Hnone.
    unfold bind at 1, bind at 1; rewrite Hv.
    unfold ret at 1, bind at 1, gets at 1; rewrite E1; cbn [sc_op sop_res].
    destruct (is_timeout_error err); reflexivity.
  - rewrite Hb at 1 2 3 4 5.
    repeat (split; [destruct s; reflexivity|]).
    intros err2 n2 m2; eapply Hhas; [exact E1|reflexivity].
Qed.

Lemma onReqError_builds_at_most_once_witness :
  onReqError 0 (TimeoutError 9%N 7 120 100) "TimeoutError" "timed out"
    conn3_streaming =
  (Ret (Some (mkSendError 0 "Timeout" "timed out")), conn3_streaming).
Proof.
  destruct (onReqError_builds_at_most_once 0
              (mkServerCall 9%N (mkServerOp 7 (mkInReq 9%N 100 None) (Some 0%nat)) false)
              (TimeoutError 9%N 7 120 100) "TimeoutError" "timed out"
              conn3_streaming eq_refl) as [H _].
  apply (H 0%nat); reflexivity.
Defined.

(** ** The range of the sweep delay *)

(** X14. With a fuzz width of 0 the sweep delay is the base interval,
    whatever the random source returns. *)
Theorem getTimeoutDelay_zero_fuzz (r : Q) (s : Conn) :
  (timeoutFuzz (options s) == 0)%Q ->
  (getTimeoutDelay r s == timeoutCheckInterval (options s))%Q.
Proof.
  intros Hfz; unfold getTimeoutDelay, js_round, js_floor.
  assert (Qfloor (r * timeoutFuzz (options s)) = 0) as ->.
  { rewrite <- (Qfloor_Z 0); apply Qfloor_comp; rewrite Hfz; ring. }
  assert (Qfloor (inject_Z 0 - timeoutFuzz (options s) / 2 + (1 # 2)) = 0) as ->.
  { assert (inject_Z 0 - timeoutFuzz (options s) / 2 + (1 # 2) == 1 # 2)%Q as E
      by (rewrite Hfz; reflexivity).
    rewrite (Qfloor_comp _ _ E); reflexivity. }
  change (inject_Z 0) with 0%Q; ring.
Qed.

Lemma getTimeoutDelay_zero_fuzz_witness :
  (getTimeoutDelay (7 # 8)
     (TChannelConnectionBase (mkChannelOptions 1000 0) (1 # 3)) == 1000)%Q.
Proof.
  apply (getTimeoutDelay_zero_fuzz (7 # 8)
           (TChannelConnectionBase (mkChannelOptions 1000 0) (1 # 3))).
  reflexivity.
Defined.

Lemma jitter_facts (r fz : Q) (f : Z) :
  (fz == inject_Z f)%Q -> 0 < f -> (0 <= r)%Q -> (r < 1)%Q ->
  let n := Qfloor (r * fz) in
  let m := Qfloor (inject_Z n - fz * (1 # 2) + (1 # 2)) in
  0 <= n < f /\ 2 * m <= 2 * n + - f + 1 /\ 2 * n + - f + 1 < 2 * m + 2.
Proof.
  intros Hfz Hf Hr0 Hr1 n m.
  assert (0 < inject_Z f)%Q as Hf'
    by (change 0%Q with (inject_Z 0); rewrite <- Zlt_Qlt; exact Hf).
  assert (0 <= n) as Hn0.
  { unfold n; rewrite <- (Qfloor_Z 0); apply Qfloor_resp_le.
    rewrite Hfz; apply Qmult_le_0_compat; [assumption|lra]. }
  assert (n < f) as Hn1.
  { pose proof (Qfloor_le (r * fz)) as Hle; fold n in Hle.
    assert (r * fz < inject_Z f)%Q by (rewrite Hfz; nra).
    rewrite Zlt_Qlt; lra. }
  split; [lia|].
  pose proof (Qfloor_le (inject_Z n - fz * (1 # 2) + (1 # 2))) as Hle.
  pose proof (Qlt_floor (inject_Z n - fz * (1 # 2) + (1 # 2))) as Hlt.
  fold m in Hle, Hlt; rewrite inject_Z_plus in Hlt.
  split; [rewrite Zle_Qle|rewrite Zlt_Qlt];
    rewrite ?inject_Z_plus, ?inject_Z_opp, ?inject_Z_mult;
    change (inject_Z 2) with 2%Q; change (inject_Z 1) with 1%Q in *;
    rewrite Hfz in *; lra.
Qed.

(** X15. For a fuzz width that is a whole number, at least 1, and a random
    draw in [0,1), the delay is the base interval plus a whole number of
    milliseconds between [-(fuzz div 2)] and [(fuzz - 1) div 2]: the jitter
    is rounded to a whole number, and the upper end [base + fuzz/2] of the
    documented range is not reached when the fuzz is even. *)
Theorem getTimeoutDelay_whole_jitter (s : Conn) (r : Q) (f : Z) :
  (timeoutFuzz (options s) == inject_Z f)%Q ->
  1 <= f ->
  (0 <= r)%Q ->
  (r < 1)%Q ->
  exists m : Z,
    (getTimeoutDelay r s == timeoutCheckInterval (options s) + inject_Z m)%Q
    /\ - (f / 2) <= m <= (f - 1) / 2.
Proof.
  intros Hfz Hf Hr0 Hr1; unfold getTimeoutDelay, js_round, js_floor.
  unfold Qdiv; change (/ 2)%Q with (1 # 2)%Q.
  destruct (jitter_facts r (timeoutFuzz (options s)) f Hfz) as (Hn & Hm1 & Hm2);
    [lia|assumption|assumption|].
  eexists; split; [reflexivity|].
  set (n := Qfloor (r * timeoutFuzz (options s))) in *.
  set (m := Qfloor (inject_Z n - timeoutFuzz (options s) * (1 # 2) + (1 # 2))) in *.
  split.
  - assert (- m <= f / 2); [|lia].
    apply Z.div_le_lower_bound; lia.
  - apply Z.div_le_lower_bound; lia.
Qed.

Lemma getTimeoutDelay_whole_jitter_witness :
  exists m : Z,
    (getTimeoutDelay (99 # 100) conn0
     == timeoutCheckInterval (options conn0) + inject_Z m)%Q
    /\ - (100 / 2) <= m <= (100 - 1) / 2.
Proof.
  apply (getTimeoutDelay_whole_jitter conn0 (99 # 100) 100);
    [reflexivity|lia|discriminate|reflexivity].
Defined.

(** ** Sweeps over tables with removed or flagged entries *)

(** X16. The incoming sweep tolerates any table: slots that hold
    [undefined] are passed over and stay, every live operation older than
    its request's TTL is removed and counted off [pending.in], and nothing
    else happens; the call returns normally, delivers and logs nothing and
    leaves the outgoing side and [lastTimeoutTime] alone. *)
Theorem checkInOpsForTimeout_tolerates_holes (now : Z) (s : Conn) :
  NoDup (Table.keys (inOps s)) ->
  exists s',
    checkInOpsForTimeout now s = (Ret tt, s')
    /\ inOps s' = filter (fun kv => negb (expired_in now (srvCalls s) kv)) (inOps s)
    /\ p_in (pending s') =
       p_in (pending s)
       - Z.of_nat (length (filter (expired_in now (srvCalls s)) (inOps s)))
    /\ (forall k, In (k, undefined) (inOps s) -> In (k, undefined) (inOps s'))
    /\ outOps s' = outOps s /\ p_out (pending s') = p_out (pending s)
    /\ lastTimeoutTime s' = lastTimeoutTime s
    /\ effects s' = effects s.
Proof.
  intros Hnd; exists (sweptIn now [] (inOps s) s); split.
  - unfold checkInOpsForTimeout; unfold bind at 1, gets at 1.
    apply checkIn_loop; [reflexivity|exact Hnd].
  - unfold sweptIn; destruct s as [o rn tm io oo [pi po] lt cl sc rs ef]; conn_norm.
    cbn [app]; repeat split.
    intros k Hin; apply filter_In; split; [exact Hin|reflexivity].
Qed.

(** An incoming table with a removed entry between two operations, the
    first of which has expired at time 200. *)
Lemma checkInOpsForTimeout_tolerates_holes_witness :
  let s := with_inOps [(9%N, obj 0%nat); (10%N, undefined)] conn3 in
  exists s',
    checkInOpsForTimeout 200 s = (Ret tt, s')
    /\ inOps s' = [(10%N, undefined)]
    /\ effects s' = effects s.
Proof.
  cbv zeta.
  destruct (checkInOpsForTimeout_tolerates_holes 200
              (with_inOps [(9%N, obj 0%nat); (10%N, undefined)] conn3))
    as (s' & E & H1 & _ & _ & _ & _ & _ & H7).
  - repeat constructor; cbn; intuition discriminate.
  - exists s'; split; [exact E|]. split; [rewrite H1; reflexivity|exact H7].
Defined.





(** ** Incoming operations stay finalizable *)

Lemma in_set_fresh {A} (t : table A) (k : Id) (v : jsval A) (x : Id * jsval A) :
  ~ In k (Table.keys t) -> In x (Table.set k v t) -> x = (k, v) \/ In x t.
Proof.
  intros Hk; destruct (TableFacts.set_fresh_split t k v Hk) as (pre & rest & -> & ->).
  rewrite !in_app_iff; cbn [In]; intuition.
Qed.

Lemma delete_removes_key {A} (t : table A) (k : Id) :
  NoDup (Table.keys t) -> ~ In k (Table.keys (Table.delete k t)).
Proof.
  induction t as [|[k' v'] t IH]; cbn [Table.delete Table.keys map fst];
    intros Hnd; [tauto|].
  inversion Hnd as [|? ? Hk Hnd']; subst.
  destruct (N.eqb_spec k k') as [->|Hne]; [exact Hk|].
  cbn [map fst In]; intros [E|Hin]; [congruence|]. apply (IH Hnd' Hin).
Qed.

Lemma run_keeps_live (c : Call) (s : Conn) :
  wf s -> live_entries s -> fresh c s = true -> live_entries (run c s).
Proof.
  intros Hwf Hlive Hfresh; pose proof Hwf as [Hnd _ H3 _ _ _].
  destruct c; cbn [run fresh] in *.
  - unfold request, live_entries in *; destruct s; m_norm; exact Hlive.
  - apply negb_true_iff, TableFacts.has_key_false in Hfresh.
    unfold handleCallRequest, live_entries in *.
    destruct s as [o rn tm io oo pd lt cl sc rs ef]; m_norm.
    conn_norm_in Hlive; conn_norm_in Hfresh.
    intros k v Hin; apply in_set_fresh in Hin; [|exact Hfresh].
    destruct Hin as [E|Hin].
    + inversion E; subst; do 2 eexists; split; [reflexivity|].
      rewrite nth_error_app2, Nat.sub_diag by lia; cbn; auto.
    + destruct (Hlive k v Hin) as (h & c & -> & E & Hid & Hd).
      exists h, c; split; [reflexivity|]; split; [|auto].
      rewrite nth_error_app1; [exact E|].
      apply nth_error_Some; congruence.
  - unfold popOutOp, live_entries in *; destruct s; m_norm.
    match goal with |- context [Table.get ?t ?k] => destruct (Table.get t k) end;
      m_norm; exact Hlive.
  - destruct (closing s) eqn:Hcl;
      [rewrite onTimeoutCheck_closing by assumption; exact Hlive|].
    destruct (Z.eqb_spec (lastTimeoutTime s) 0) as [Hlast|Hlast].
    + destruct Hwf as [H1 H2 H3' _ _ _].
      rewrite onTimeoutCheck_sweeps by assumption.
      unfold live_entries, swept, sweptIn, sweptOut in *.
      destruct s as [o rn tm io oo pd lt cl sc rs ef]; conn_norm; conn_norm_in Hlive.
      cbn [app]; intros k v Hin; apply filter_In in Hin; apply Hlive, Hin.
    + rewrite onTimeoutCheck_escalates by assumption.
      unfold live_entries in *; destruct s; exact Hlive.
  - unfold buildResponse, live_entries in *.
    destruct s as [o rn tm io oo pd lt cl sc rs ef]; m_norm; conn_norm_in Hlive.
    destruct (nth_error sc h) as [c0|] eqn:E0; m_norm; [|exact Hlive].
    destruct (res_started rs (sop_res (sc_op c0))); m_norm; [exact Hlive|].
    intros k v Hin; destruct (Hlive k v Hin) as (h' & c & -> & E & Hid & Hd).
    exists h'; destruct (Nat.eqb_spec h h') as [->|Hne].
    + eexists; split; [reflexivity|]; split.
      * rewrite nth_error_list_set, Nat.eqb_refl, E0; reflexivity.
      * cbn [sc_id sc_done]; split; congruence.
    + exists c; split; [reflexivity|]; split; [|auto].
      rewrite nth_error_list_set, E0.
      apply Nat.eqb_neq in Hne; rewrite Hne; exact E.
  - unfold setResState, live_entries in *; destruct s; m_norm.
    match goal with |- context [nth_error ?l ?n] => destruct (nth_error l n) end;
      m_norm; exact Hlive.
  - unfold opDone, live_entries in *.
    destruct s as [o rn tm io oo pd lt cl sc rs ef]; m_norm;
      conn_norm_in Hlive; conn_norm_in Hnd.
    destruct (nth_error sc h) as [c0|] eqn:E0; m_norm; [|exact Hlive].
    destruct (sc_done c0) eqn:Hd0; m_norm; [exact Hlive|].
    destruct (jsval_nat_eqb (Table.get io (sc_id c0)) h) eqn:Hm; m_norm.
    + intros k v Hin.
      pose proof (TableFacts.in_keys _ _ _ Hin) as Hkey.
      apply TableFacts.in_delete in Hin.
      destruct (Hlive k v Hin) as (h' & c & -> & E & Hid & Hd).
      exists h', c; split; [reflexivity|]; split; [|auto].
      rewrite nth_error_list_set, E0.
      destruct (Nat.eqb_spec h h') as [->|_]; [|exact E].
      exfalso; assert (c = c0) by congruence; subst c; subst k.
      apply (delete_removes_key io (sc_id c0) Hnd Hkey).
    + intros k v Hin.
      destruct (Hlive k v Hin) as (h' & c & -> & E & Hid & Hd).
      exists h', c; split; [reflexivity|]; split; [|auto].
      rewrite nth_error_list_set, E0.
      destruct (Nat.eqb_spec h h') as [->|_]; [|exact E].
      exfalso; assert (c = c0) by congruence; subst c; subst k.
      rewrite (TableFacts.in_get io _ _ Hnd Hin) in Hm.
      cbn [jsval_nat_eqb] in Hm; rewrite Nat.eqb_refl in Hm; discriminate.
  - destruct (closing s) eqn:Hcl.
    + rewrite resetAll_closing by assumption.
      unfold live_entries in *; destruct s; exact Hlive.
    + destruct Hwf as [H1 H2 H3' _ _ _].
      rewrite resetAll_first by auto using out_slot_ok_defined.
      intros k v [].
  - unfold close; destruct (closing s) eqn:Hcl.
    + rewrite resetAll_closing by assumption.
      unfold live_entries in *; destruct s; exact Hlive.
    + destruct Hwf as [H1 H2 H3' _ _ _].
      rewrite resetAll_first by auto using out_slot_ok_defined.
      intros k v [].
Qed.

Lemma reachable_live (s : Conn) : reachable s -> live_entries s.
Proof.
  induction 1 as [o r|s c Hs IH Hfresh].
  - intros k v [].
  - apply run_keeps_live; [apply reachable_wf|..]; assumption.
Qed.

(** X18. On a reachable connection every entry of the incoming table can
    still be finalized: it refers to the activation of [handleCallRequest]
    that registered it under that ID, whose [done] flag is clear, so
    [opDone] of that activation removes exactly this entry, lowers
    [pending.in] by one and logs no mismatch. *)
Theorem registered_incoming_is_finalizable (k : Id) (h : nat) (s : Conn) :
  reachable s ->
  In (k, obj h) (inOps s) ->
  exists c s',
    nth_error (srvCalls s) h = Some c /\ sc_id c = k /\ sc_done c = false
    /\ opDone h s = (Ret tt, s')
    /\ inOps s' = Table.delete k (inOps s)
    /\ Table.get (inOps s') k = undefined
    /\ pending s' = mkPending (p_in (pending s) - 1) (p_out (pending s))
    /\ effects s' = effects s.
Proof.
  intros Hs Hin.
  destruct (reachable_live s Hs k (obj h) Hin) as (h' & c & Eh & E & Hid & Hd).
  inversion Eh; subst h'; clear Eh.
  destruct (reachable_wf s Hs) as [Hnd _ _ _ _ _].
  pose proof (TableFacts.in_get _ _ _ Hnd Hin) as Hget.
  clear Hs Hin.
  destruct s as [o rn tm io oo [pi po] lt cl sc rs ef].
  conn_norm_in E; conn_norm_in Hget; conn_norm_in Hnd.
  exists c; eexists; split; [exact E|]. split; [exact Hid|]. split; [exact Hd|].
  unfold opDone; m_norm.
  rewrite E, Hd; m_norm; rewrite Hid, Hget; cbn [jsval_nat_eqb].
  rewrite Nat.eqb_refl; m_norm.
  split; [reflexivity|]; conn_norm.
  split; [reflexivity|]. split; [apply get_delete_same; exact Hnd|]. auto.
Qed.

Lemma registered_incoming_is_finalizable_witness :
  exists c s',
    nth_error (srvCalls conn3) 0 = Some c /\ sc_id c = 9%N /\ sc_done c = false
    /\ opDone 0 conn3 = (Ret tt, s')
    /\ inOps s' = Table.delete 9%N (inOps conn3)
    /\ Table.get (inOps s') 9%N = undefined
    /\ pending s' = mkPending (p_in (pending conn3) - 1) (p_out (pending conn3))
    /\ effects s' = effects conn3.
Proof.
  apply (registered_incoming_is_finalizable 9%N 0 conn3 reachable_conn3).
  left; reflexivity.
Defined.

(** ** Late completions and reused IDs *)

Lemma opDone_mismatch (h : nat) (c : ServerCall) (s : Conn) :
  nth_error (srvCalls s) h = Some c ->
  sc_done c = false ->
  Table.get (inOps s) (sc_id c) <> obj h ->
  exists s',
    opDone h s = (Ret tt, s')
    /\ inOps s' = inOps s /\ outOps s' = outOps s /\ pending s' = pending s
    /\ effects s' =
       effects s ++ [Log Warn "mismatched opDone callback" (MetaMismatch (sc_id c))].
Proof.
  intros E Hd Hne; unfold opDone.
  destruct s as [o rn tm io oo pd lt cl sc rs ef]; conn_norm_in E; conn_norm_in Hne.
  m_norm; rewrite E, Hd; m_norm.
  destruct (jsval_nat_eqb (Table.get io (sc_id c)) h) eqn:Hm.
  - apply jsval_nat_eqb_true in Hm; contradiction.
  - m_norm; eexists; split; [reflexivity|]; conn_norm; auto.
Qed.

(** X19. [handleCallRequest] does not guard against an ID that is in
    flight either.  On a reachable connection it then overwrites the entry
    under that ID with the new operation and still raises [pending.in],
    which from then on exceeds the number of entries by one; the operation
    registered before is orphaned: when it completes, [opDone] finds the
    table mapping its ID to another operation, logs the mismatch and leaves
    the new operation and the counters alone. *)
Theorem handleCallRequest_on_id_in_flight
  (now : Z) (req : InReq) (h : nat) (s : Conn) :
  reachable s ->
  In (ireq_id req, obj h) (inOps s) ->
  exists s1 s2,
    handleCallRequest now req s = (Ret (length (srvCalls s)), s1)
    /\ Table.keys (inOps s1) = Table.keys (inOps s)
    /\ Table.get (inOps s1) (ireq_id req) = obj (length (srvCalls s))
    /\ p_in (pending s1) = Table.size (inOps s1) + 1
    /\ opDone h s1 = (Ret tt, s2)
    /\ inOps s2 = inOps s1
    /\ pending s2 = pending s1
    /\ effects s2 =
       effects s1 ++ [Log Warn "mismatched opDone callback"
                          (MetaMismatch (ireq_id req))].
Proof.
  intros Hs Hin.
  destruct (reachable_live s Hs _ _ Hin) as (h' & c & Eh & E & Hid & Hd).
  inversion Eh; subst h'; clear Eh.
  destruct (reachable_ascending s Hs) as [_ Hasc].
  destruct (reachable_wf s Hs) as [_ _ _ _ _ Hp].
  pose proof (TableFacts.in_keys _ _ _ Hin) as Hkey.
  assert (h < length (srvCalls s))%nat as Hlt by (apply nth_error_Some; congruence).
  pose proof (TableOrder.keys_set_present (inOps s) (ireq_id req)
                (obj (length (srvCalls s))) Hasc Hkey) as Hkeys.
  clear Hs Hin.
  destruct s as [o rn tm io oo [pi po] lt cl sc rs ef].
  conn_norm_in E; conn_norm_in Hp; conn_norm_in Hkeys; conn_norm_in Hlt.
  unfold handleCallRequest; cbn [ireq_id]; m_norm.
  set (s1 := mkConn o rn tm (Table.set (ireq_id req) (obj (length sc)) io) oo
               (mkPending (pi + 1) po) lt cl
               (sc ++ [mkServerCall (ireq_id req)
                         (mkServerOp now (mkInReq (ireq_id req) (ireq_ttl req) rn) None)
                         false]) rs
               ((ef ++ [ReqOnError (length sc)]) ++ [NextTick (length sc)])).
  destruct (opDone_mismatch h c s1) as (s2 & E2 & G1 & _ & G3 & G4).
  - unfold s1; conn_norm; rewrite nth_error_app1 by exact Hlt; exact E.
  - exact Hd.
  - unfold s1; conn_norm; rewrite Hid, TableFacts.get_set.
    intros Hx; inversion Hx; lia.
  - exists s1, s2; split; [reflexivity|].
    split; [exact Hkeys|]. split; [apply TableFacts.get_set|].
    split.
    + unfold s1, Table.size in *; conn_norm; subst pi.
      apply (f_equal (@length Id)) in Hkeys; unfold Table.keys in Hkeys.
      rewrite !length_map in Hkeys; rewrite Hkeys; reflexivity.
    + rewrite Hid in G4; auto.
Qed.

Lemma handleCallRequest_on_id_in_flight_witness :
  exists s1 s2,
    handleCallRequest 20 (mkInReq 9%N 100 None) conn3
    = (Ret (length (srvCalls conn3)), s1)
    /\ Table.keys (inOps s1) = Table.keys (inOps conn3)
    /\ Table.get (inOps s1) 9%N = obj (length (srvCalls conn3))
    /\ p_in (pending s1) = Table.size (inOps s1) + 1
    /\ opDone 0 s1 = (Ret tt, s2)
    /\ inOps s2 = inOps s1
    /\ pending s2 = pending s1
    /\ effects s2 =
       effects s1 ++ [Log Warn "mismatched opDone callback" (MetaMismatch 9%N)].
Proof.
  apply (handleCallRequest_on_id_in_flight 20 (mkInReq 9%N 100 None) 0 conn3
           reachable_conn3).
  left; reflexivity.
Defined.








